(** * SRT subtitle translator: parser, placeholder translator, generator

    Shallow embedding of [src/components/SRTTranslator.tsx]: the three
    closures [parseSRT], [translateText], [generateSRT] of the component and
    its [handleTranslate] callback, together with the ECMAScript built-ins
    they call ([String.prototype.trim], [split], [match], [parseInt],
    [Array.prototype.join], [Promise.all]).

    A JavaScript string is a sequence of UTF-16 code units; it is modelled as
    a list of code units, each an [N]. *)

From Stdlib Require Import NArith Ascii String Decimal DecimalNat Permutation.
From stdpp Require Import base tactics option list.

Local Open Scope nat_scope.
Local Open Scope list_scope.

(** ** JavaScript strings *)

Abbreviation str := (list N).

(** A literal of ASCII characters, as code units. *)
Definition lit (s : string) : str :=
  map N_of_ascii (list_ascii_of_string s).

Arguments lit : simpl never.

Definition LF : N := 10%N.
Definition CR : N := 13%N.

(** ECMAScript [WhiteSpace] and [LineTerminator] code points: the set that
    [trim], the [\s] class and [parseInt] skip. *)
Definition is_space (c : N) : bool :=
  ((9 <=? c) && (c <=? 13) || (c =? 32) || (c =? 160) || (c =? 5760)
   || (8192 <=? c) && (c <=? 8202) || (c =? 8232) || (c =? 8233)
   || (c =? 8239) || (c =? 8287) || (c =? 12288) || (c =? 65279))%N.

(** The [\d] class: the ten ASCII digits. *)
Definition is_digit (c : N) : bool := ((48 <=? c) && (c <=? 57))%N.

Fixpoint trimStart (s : str) : str :=
  match s with
  | c :: s' => if is_space c then trimStart s' else s
  | [] => []
  end.

Definition trimEnd (s : str) : str := rev (trimStart (rev s)).

(** [String.prototype.trim]. *)
Definition trim (s : str) : str := trimEnd (trimStart s).

(** [String.prototype.split] with a one-code-unit separator string: the
    result always has at least one element. *)
Fixpoint split_char (sep : N) (s : str) : list str :=
  match s with
  | [] => [[]]
  | c :: s' =>
      if (c =? sep)%N then [] :: split_char sep s'
      else match split_char sep s' with
           | l :: ls => (c :: l) :: ls
           | [] => [[c]]
           end
  end.

(** [Array.prototype.join] on an array of strings. *)
Fixpoint join (sep : str) (l : list str) : str :=
  match l with
  | [] => []
  | [x] => x
  | x :: l' => x ++ sep ++ join sep l'
  end.

(** ** Regular expressions

    The fragment of the pattern language that the two patterns of the source
    use: character classes, concatenation, a greedy star over a character
    class and capturing groups.  The matcher is the backtracking matcher of
    the language definition, in continuation-passing style: [k] receives the
    rest of the input and the captures made so far, and a failure of [k]
    makes the matcher try its next alternative.  A group records its text
    when it closes; the groups of the patterns below are not nested, so
    that this is their numbering. *)

Inductive regex : Type :=
  | Eps
  | Class (p : N -> bool)
  | Seq (r1 r2 : regex)
  | Star (p : N -> bool)
  | Group (r : regex).

Fixpoint star_greedy {A} (p : N -> bool) (s : str) (k : str -> option A)
  : option A :=
  match s with
  | c :: s' =>
      if p c then
        match star_greedy p s' k with
        | Some a => Some a
        | None => k s
        end
      else k s
  | [] => k []
  end.

Fixpoint rmatch {A} (r : regex) (s : str) (caps : list str)
    (k : str -> list str -> option A) : option A :=
  match r with
  | Eps => k s caps
  | Class p =>
      match s with
      | c :: s' => if p c then k s' caps else None
      | [] => None
      end
  | Seq r1 r2 => rmatch r1 s caps (fun s' caps' => rmatch r2 s' caps' k)
  | Star p => star_greedy p s (fun s' => k s' caps)
  | Group r =>
      rmatch r s caps
        (fun s' caps' => k s' (caps' ++ [take (length s - length s') s]))
  end.

(** A match anchored at the head of [s]: the rest of the input after the
    match, and the captured groups in order. *)
Definition match_here (r : regex) (s : str) : option (str * list str) :=
  rmatch r s [] (fun s' caps => Some (s', caps)).

(** [RegExp.prototype.exec] of a pattern without flags, from index 0: the
    leftmost start at which the pattern matches.  The result is the match
    array: the matched text followed by the groups. *)
Fixpoint regex_exec (r : regex) (s : str) : option (list str) :=
  match match_here r s with
  | Some (s', caps) => Some (take (length s - length s') s :: caps)
  | None =>
      match s with
      | [] => None
      | _ :: t => regex_exec r t
      end
  end.

(** [String.prototype.match] with a pattern without the [g] flag. *)
Definition string_match (s : str) (r : regex) : option (list str) :=
  regex_exec r s.

(** Outcome of a computation of the model: a value, a thrown [TypeError],
    or [Stuck] when the model leaves the strings it covers (the loop bound
    of [split_loop] exhausted, or an [undefined] where a string is
    expected). *)
Inductive result (A : Type) : Type :=
  | Ok (a : A)
  | TypeError
  | Stuck.
Arguments Ok {A} a.
Arguments TypeError {A}.
Arguments Stuck {A}.

#[global] Instance result_bind : MBind result := fun A B f m =>
  match m with
  | Ok a => f a
  | TypeError => TypeError
  | Stuck => Stuck
  end.

#[global] Instance result_ret : MRet result := fun A a => Ok a.

(** The loop of [RegExp.prototype[@@split]] (no limit).  [cur] holds the
    code units of [S[p..q)] in reverse and [rest] is [S[q..)]; the pattern is
    tried at [q]; a match that ends at [p] (an empty match at the start of the
    current piece) advances [q], any other one closes the piece, appends the
    captures and restarts at its end. *)
Fixpoint split_loop (fuel : nat) (r : regex) (cur rest : str)
  : result (list str) :=
  match fuel with
  | 0 => Stuck
  | S fuel' =>
      match rest with
      | [] => Ok [rev cur]
      | c :: rest' =>
          match match_here r rest with
          | None => split_loop fuel' r (c :: cur) rest'
          | Some (after, caps) =>
              if bool_decide (cur = []) && (length after =? length rest)
              then split_loop fuel' r (c :: cur) rest'
              else
                pieces ← split_loop fuel' r [] after;
                Ok (rev cur :: caps ++ pieces)
          end
      end
  end.

(** [String.prototype.split] with a pattern separator. *)
Definition regex_split (s : str) (r : regex) : result (list str) :=
  match s with
  | [] => match match_here r [] with
          | Some _ => Ok []
          | None => Ok [[]]
          end
  | _ => split_loop (2 * length s + 1) r [] s
  end.

(** ** Numbers

    [parseInt] returns [NaN] or the Number nearest to a signed integer;
    [Int neg m] stands for the Number of [m] with sign [neg] ([-0] for
    [Int true 0]).  The rounding to a double is a function of this value
    and is not unfolded: no code of the component reads the field. *)
Inductive number : Type :=
  | NaN
  | Int (neg : bool) (magnitude : N).

Definition is_hex_digit (c : N) : bool :=
  (is_digit c || (97 <=? c) && (c <=? 102) || (65 <=? c) && (c <=? 70))%N.

Definition digit_value (c : N) : N :=
  (if is_digit c then c - 48
   else if (97 <=? c) && (c <=? 102) then c - 87
   else c - 55)%N.

Fixpoint take_while (p : N -> bool) (s : str) : str :=
  match s with
  | c :: s' => if p c then c :: take_while p s' else []
  | [] => []
  end.

Definition radix_value (radix : N) (digits : str) : N :=
  fold_left (fun acc c => (acc * radix + digit_value c)%N) digits 0%N.

(** The sign of the numeral and the text after it. *)
Definition parse_sign (s : str) : bool * str :=
  match s with
  | c :: t => if (c =? 45)%N then (true, t)
              else if (c =? 43)%N then (false, t)
              else (false, s)
  | [] => (false, [])
  end.

(** The radix (16 after a [0x] or [0X] prefix, else 10), its digit class
    and the text after the prefix. *)
Definition parse_radix (s : str) : N * (N -> bool) * str :=
  match s with
  | c0 :: c1 :: t =>
      if ((c0 =? 48) && ((c1 =? 120) || (c1 =? 88)))%N
      then (16%N, is_hex_digit, t)
      else (10%N, is_digit, s)
  | _ => (10%N, is_digit, s)
  end.

(** [parseInt(string)] without a radix argument. *)
Definition parseInt (s : str) : number :=
  let '(neg, s1) := parse_sign (trimStart s) in
  let '(radix, isdig, s2) := parse_radix s1 in
  match take_while isdig s2 with
  | [] => NaN
  | z => Int neg (radix_value radix z)
  end.

(** [Number::toString] of a non-negative integer below 2^53: its decimal
    numeral. *)
Fixpoint uint_digits (d : Decimal.uint) : str :=
  match d with
  | Nil => []
  | D0 d => 48%N :: uint_digits d
  | D1 d => 49%N :: uint_digits d
  | D2 d => 50%N :: uint_digits d
  | D3 d => 51%N :: uint_digits d
  | D4 d => 52%N :: uint_digits d
  | D5 d => 53%N :: uint_digits d
  | D6 d => 54%N :: uint_digits d
  | D7 d => 55%N :: uint_digits d
  | D8 d => 56%N :: uint_digits d
  | D9 d => 57%N :: uint_digits d
  end.

Definition number_to_string (n : nat) : str := uint_digits (Nat.to_uint n).

(** ** The component's patterns *)

Definition chr (c : N) : regex := Class (N.eqb c).

Fixpoint seqs (rs : list regex) : regex :=
  match rs with
  | [] => Eps
  | r :: rs' => Seq r (seqs rs')
  end.

(** [\d{n}] *)
Definition digits (n : nat) : regex := seqs (replicate n (Class is_digit)).

(** The literal text [s] as a pattern. *)
Definition chars (s : str) : regex := seqs (map chr s).

(** [/\n\s*\n/], the separator of blocks. *)
Definition blank_pattern : regex :=
  seqs [chr LF; Star is_space; chr LF].

(** [\d{2}:\d{2}:\d{2},\d{3}] *)
Definition timecode : regex :=
  seqs [digits 2; chr 58; digits 2; chr 58; digits 2; chr 44; digits 3].

(** [/(\d{2}:\d{2}:\d{2},\d{3}) --> (\d{2}:\d{2}:\d{2},\d{3})/] *)
Definition time_pattern : regex :=
  seqs [Group timecode; chars (lit " --> "); Group timecode].

(** ** The subtitle entry and the parser *)

Record SRTEntry : Type := mkEntry {
  index : number;
  startTime : str;
  endTime : str;
  text : str
}.

(** [a[i]] used as the receiver of a method call: [undefined] there throws a
    [TypeError]. *)
Definition receiver (a : list str) (i : nat) : result str :=
  match a !! i with
  | Some s => Ok s
  | None => TypeError
  end.

(** An element bound by array destructuring where a string is expected. *)
Definition element (a : list str) (i : nat) : result str :=
  match a !! i with
  | Some s => Ok s
  | None => Stuck
  end.

(** The callback of [blocks.forEach] in [parseSRT]; [entries] is the array
    it pushes to. *)
Definition parse_block (entries : list SRTEntry) (block : str)
  : result (list SRTEntry) :=
  let lines := split_char LF block in
  if 3 <=? length lines then
    line0 ← receiver lines 0;
    let index := parseInt (trim line0) in
    line1 ← receiver lines 1;
    match string_match line1 time_pattern with
    | Some timeMatch =>
        startTime ← element timeMatch 1;
        endTime ← element timeMatch 2;
        let text := trim (join [LF] (drop 2 lines)) in
        Ok (entries ++ [mkEntry index startTime endTime text])
    | None => Ok entries
    end
  else Ok entries.

(** [Array.prototype.forEach] with a callback that updates a state. *)
Fixpoint forEach {S A} (f : S -> A -> result S) (l : list A) (st : S)
  : result S :=
  match l with
  | [] => Ok st
  | x :: l' => st' ← f st x; forEach f l' st'
  end.

Definition parseSRT (content : str) : result (list SRTEntry) :=
  blocks ← regex_split (trim content) blank_pattern;
  forEach parse_block blocks [].

(** ** The placeholder translator

    The value with which the promise of [translateText] is fulfilled; the
    promise never rejects. *)
Definition hebrew_prefix : str :=
  [1514; 1512; 1490; 1493; 1501; 58; 32]%N.

Definition translateText (text targetLanguage : str) : str :=
  if bool_decide (targetLanguage = lit "hebrew")
  then hebrew_prefix ++ text
  else lit "Translation: " ++ text.

(** ** The generator *)

Definition generateSRT (entries : list SRTEntry) : str :=
  join [LF]
    (imap (fun index entry =>
             number_to_string (index + 1) ++ [LF]
             ++ startTime entry ++ lit " --> " ++ endTime entry ++ [LF]
             ++ text entry ++ [LF])
          entries).

(** ** Promises and the translate handler

    A promise settles, some time after its creation, with a value or with a
    rejection reason. *)
Inductive settlement (A R : Type) : Type :=
  | Fulfilled (a : A)
  | Rejected (reason : R).
Arguments Fulfilled {A R} a.
Arguments Rejected {A R} reason.

(** The state of [Promise.all]: the [values] array, one slot per input
    promise, the count of promises still pending, and the settlement of the
    aggregate promise once there is one. *)
Record all_state (A R : Type) : Type := mkAll {
  values : list (option A);
  remaining : nat;
  settled : option (settlement (list (option A)) R)
}.
Arguments mkAll {A R}.
Arguments values {A R}.
Arguments remaining {A R}.
Arguments settled {A R}.

Definition all_init {A R} (n : nat) : all_state A R :=
  mkAll (replicate n None) n
        (if n =? 0 then Some (Fulfilled []) else None).

(** A promise that is already settled ignores later resolutions. *)
Definition settle {A R} (old : option (settlement A R)) (new : settlement A R)
  : option (settlement A R) :=
  match old with
  | Some s => Some s
  | None => Some new
  end.

(** The reaction of [Promise.all] to the settlement of its [i]-th input:
    a fulfilment stores the value at index [i] and fulfils the aggregate
    when it was the last one pending; a rejection rejects the aggregate. *)
Definition all_react {A R} (st : all_state A R) (i : nat)
    (o : settlement A R) : all_state A R :=
  match o with
  | Fulfilled x =>
      let values' := <[i := Some x]> (values st) in
      let remaining' := remaining st - 1 in
      mkAll values' remaining'
            (if remaining' =? 0
             then settle (settled st) (Fulfilled values')
             else settled st)
  | Rejected e => mkAll (values st) (remaining st)
                        (settle (settled st) (Rejected e))
  end.

(** The timers of the event loop fire by increasing delay, and for equal
    delays in the order of their creation: [insert_by] and [fire_order]
    are the stable insertion sort of the indices by delay. *)
Fixpoint insert_by (delay : nat -> nat) (i : nat) (l : list nat) : list nat :=
  match l with
  | [] => [i]
  | j :: l' => if delay j <? delay i then j :: insert_by delay i l'
               else i :: l
  end.

Definition fire_order (delay : nat -> nat) (n : nat) : list nat :=
  foldr (insert_by delay) [] (seq 0 n).

(** The reaction to the settlement of the [i]-th of the promises, which
    settle with [outcomes]. *)
Definition all_step {A R} (outcomes : list (settlement A R))
    (st : all_state A R) (i : nat) : all_state A R :=
  match outcomes !! i with
  | Some o => all_react st i o
  | None => st
  end.

(** [Promise.all] over promises whose [i]-th one settles with
    [outcomes !! i], reacting to the settlements in the order [order]. *)
Definition promise_all {A R} (outcomes : list (settlement A R))
    (order : list nat) : all_state A R :=
  fold_left (all_step outcomes) order (all_init (length outcomes)).

Record File : Type := mkFile { name : str; content : str }.

Inductive toast : Type :=
  | toast_error (message : str)
  | toast_success (message : str).

(** The component state read or written by [handleTranslate], and the
    notifications shown so far (the latest last).  The line written to the
    console by the [catch] block is not part of the state. *)
Record state : Type := mkState {
  selectedLanguage : str;
  file : option File;
  translatedSRT : str;
  isTranslating : bool;
  originalEntries : list SRTEntry;
  toasts : list toast
}.

Definition setTranslatedSRT (v : str) (st : state) : state :=
  mkState (selectedLanguage st) (file st) v (isTranslating st)
          (originalEntries st) (toasts st).
Definition setIsTranslating (v : bool) (st : state) : state :=
  mkState (selectedLanguage st) (file st) (translatedSRT st) v
          (originalEntries st) (toasts st).
Definition setOriginalEntries (v : list SRTEntry) (st : state) : state :=
  mkState (selectedLanguage st) (file st) (translatedSRT st)
          (isTranslating st) v (toasts st).
Definition show (t : toast) (st : state) : state :=
  mkState (selectedLanguage st) (file st) (translatedSRT st)
          (isTranslating st) (originalEntries st) (toasts st ++ [t]).

Definition msg_missing_input : str :=
  [1488; 1504; 1488; 32; 1489; 1495; 1512; 32; 1511; 1493; 1489; 1509; 32;
   1493; 1513; 1508; 1514; 32; 1514; 1512; 1490; 1493; 1501]%N.
Definition msg_done : str :=
  [1492; 1514; 1512; 1490; 1493; 1501; 32; 1492; 1493; 1513; 1500; 1501; 32;
   1489; 1492; 1510; 1500; 1495; 1492; 33]%N.
Definition msg_failed : str :=
  [1513; 1490; 1497; 1488; 1492; 32; 1489; 1514; 1512; 1490; 1493; 1501; 32;
   1492; 1511; 1493; 1489; 1509]%N.

Section Translate.
(** The translation seam: the settlement of the promise returned by the
    call for a text and a language, and the delay after which the call
    made for the entry at a position settles. *)
Context {R : Type}.
Variable translator : str -> str -> settlement str R.
Variable delay : nat -> nat.

(** The async arrow mapped over the entries: the entry with its text
    replaced, or the rejection of the translation. *)
Definition translate_entry (lang : str) (entry : SRTEntry)
  : settlement SRTEntry R :=
  match translator (text entry) lang with
  | Fulfilled t =>
      Fulfilled (mkEntry (index entry) (startTime entry) (endTime entry) t)
  | Rejected e => Rejected e
  end.

(** The [try] block of [handleTranslate], from the file content on: the
    state it leaves, and whether it completed ([true]) or threw.  The
    elements of the awaited array are read by [generateSRT]; an
    [undefined] one would throw there. *)
Definition try_translate (lang text_of_file : str) (st : state)
  : result (state * bool) :=
  match parseSRT text_of_file with
  | Stuck => Stuck
  | TypeError => Ok (st, false)
  | Ok entries =>
      let st := setOriginalEntries entries st in
      let outcomes := translate_entry lang <$> entries in
      match settled (promise_all outcomes
                       (fire_order delay (length outcomes))) with
      | None => Stuck
      | Some (Rejected _) => Ok (st, false)
      | Some (Fulfilled slots) =>
          match mapM id slots with
          | None => Ok (st, false)
          | Some translatedEntries =>
              let translatedContent := generateSRT translatedEntries in
              let st := setTranslatedSRT translatedContent st in
              Ok (show (toast_success msg_done) st, true)
          end
      end
  end.

Definition handleTranslate_with (st : state) : result state :=
  match file st, selectedLanguage st with
  | None, _ | _, [] => Ok (show (toast_error msg_missing_input) st)
  | Some f, lang =>
      let st := setIsTranslating true st in
      '(st, completed) ← try_translate lang (content f) st;
      let st := if completed : bool then st
                else show (toast_error msg_failed) st in
      Ok (setIsTranslating false st)
  end.
End Translate.

(** The component's handler: the translator is [translateText], whose
    promise is fulfilled 100 ms after each call. *)
Definition handleTranslate (st : state) : result state :=
  handleTranslate_with (R := Empty_set)
    (fun t lang => Fulfilled (translateText t lang)) (fun _ => 100) st.

(** ** Declarative reading of the patterns

    The properties below relate the matcher to these. *)

(** [Matches r m c c']: the text [m] is matched by [r], which extends the
    captures [c] to [c']. *)
Inductive Matches : regex -> str -> list str -> list str -> Prop :=
  | M_eps c : Matches Eps [] c c
  | M_class p x c : p x = true -> Matches (Class p) [x] c c
  | M_seq r1 r2 m1 m2 c c1 c2 :
      Matches r1 m1 c c1 -> Matches r2 m2 c1 c2 ->
      Matches (Seq r1 r2) (m1 ++ m2) c c2
  | M_star p m c : Forall (fun x => p x = true) m -> Matches (Star p) m c c
  | M_group r m c c1 : Matches r m c c1 -> Matches (Group r) m c (c1 ++ [m]).


(** The textual shape [HH:MM:SS,mmm]: twelve code units, digits except for
    the two colons and the comma. *)
Definition is_timecode (s : str) : bool :=
  match s with
  | [h1; h2; c1; m1; m2; c2; s1; s2; k; f1; f2; f3] =>
      is_digit h1 && is_digit h2 && (c1 =? 58)%N
      && is_digit m1 && is_digit m2 && (c2 =? 58)%N
      && is_digit s1 && is_digit s2 && (k =? 44)%N
      && is_digit f1 && is_digit f2 && is_digit f3
  | _ => false
  end.

(** A line that contains two timecodes separated by [" --> "]. *)
Definition has_time_range (line : str) : Prop :=
  exists pre t1 t2 post,
    line = pre ++ t1 ++ lit " --> " ++ t2 ++ post
    /\ is_timecode t1 = true /\ is_timecode t2 = true.

(** The entry that the callback of [parseSRT] pushes for a block, if any:
    the callback read as a function of the block alone
    ([parse_block_entry] relates the two). *)
Definition block_entry (block : str) : option SRTEntry :=
  let lines := split_char LF block in
  match lines with
  | line0 :: line1 :: _ :: _ =>
      match string_match line1 time_pattern with
      | Some [_; startTime; endTime] =>
          Some (mkEntry (parseInt (trim line0)) startTime endTime
                        (trim (join [LF] (drop 2 lines))))
      | _ => None
      end
  | _ => None
  end.

(** The value in base ten of a string of the digits ['0'] (48) to ['9']
    (57), read from the left. *)
Definition numeral_value (s : str) : N :=
  fold_left (fun acc c => (10 * acc + (c - 48))%N) s 0%N.

(** [s] is the decimal numeral of [n]: a non-empty string of decimal
    digits, without a leading zero unless it is ["0"], whose value is [n].
    Stated on the code units, apart from [number_to_string]. *)
Definition is_numeral_of (s : str) (n : nat) : Prop :=
  s <> []
  /\ Forall (fun c => (48 <= c <= 57)%N) s
  /\ (forall rest, s = 48%N :: rest -> rest = [])
  /\ numeral_value s = N.of_nat n.

(** The block written for the entry at the 0-based position [i]. *)
Definition block_text (i : nat) (entry : SRTEntry) : str :=
  number_to_string (i + 1) ++ [LF]
  ++ startTime entry ++ lit " --> " ++ endTime entry ++ [LF]
  ++ text entry ++ [LF].

(** The blocks for the entries at the positions [i], [i + 1], ... *)
Fixpoint blocks_from (i : nat) (entries : list SRTEntry) : list str :=
  match entries with
  | [] => []
  | entry :: entries' => block_text i entry :: blocks_from (S i) entries'
  end.

(** Two entries that differ at most in their [index] field. *)
Definition same_cue (e e' : SRTEntry) : Prop :=
  startTime e = startTime e' /\ endTime e = endTime e' /\ text e = text e'.

(** A block that the parser drops: fewer than three lines, or a second line
    without a time range. *)
Definition malformed (block : str) : Prop :=
  length (split_char LF block) < 3
  \/ exists line1, split_char LF block !! 1 = Some line1
                   /\ ~ has_time_range line1.


(** Sample inputs. *)
Definition ex_malformed : str :=
  lit "5" ++ [LF] ++ lit "not-a-timecode" ++ [LF] ++ lit "Hello".

Definition ex_multiline : str :=
  lit "1" ++ [LF] ++ lit "00:00:01,000 --> 00:00:02,000" ++ [LF]
  ++ lit "Line one" ++ [LF] ++ lit "Line two".

(** A block whose text has a space and a tab before it, a space, a tab and
    a carriage return after it, and spaces on both sides of its inner
    newline; and a text of two blocks that begins with it. *)
Definition ex_padded_block : str :=
  lit "1" ++ [LF] ++ lit "00:00:01,000 --> 00:00:02,000" ++ [LF]
  ++ [32%N; 9%N] ++ lit "Line one " ++ [LF] ++ lit "  Line two"
  ++ [32%N; 9%N; CR].

Definition ex_padded : str :=
  ex_padded_block ++ [LF; LF]
  ++ lit "2" ++ [LF] ++ lit "00:00:03,000 --> 00:00:04,000" ++ [LF]
  ++ lit "Bye".

Definition ex_two_lines : str :=
  lit "1" ++ [LF] ++ lit "00:00:01,000 --> 00:00:02,000".

(** Indices 7 and "x", an end before its start, text after the range and a
    carriage return at the end of the lines of the second block. *)
Definition ex_mixed : str :=
  lit "7" ++ [LF] ++ lit "00:00:01,000 --> 00:00:02,000" ++ [LF]
  ++ lit "Line one" ++ [LF] ++ lit "Line two" ++ [LF; LF; 32%N; LF]
  ++ lit "x" ++ [CR; LF] ++ lit "at 00:00:05,000 --> 00:00:02,000 X1:10"
  ++ [CR; LF] ++ lit "Hi" ++ [CR; LF; LF]
  ++ ex_malformed ++ [LF; LF].

Definition ex_bad_index : str :=
  lit "x" ++ [LF] ++ lit "00:00:01,000 --> 00:00:02,000" ++ [LF] ++ lit "Hi".

Definition ex_entry (i : number) : SRTEntry :=
  mkEntry i (lit "00:00:01,000") (lit "00:00:02,000") (lit "Hi").


(** The promise at index [i] is fulfilled. *)
Definition fulfilled {A R} (outcomes : list (settlement A R)) (i : nat)
  : Prop :=
  exists v, outcomes !! i = Some (Fulfilled v).

(** The entry with its text translated by [tr]. *)
Definition translated (tr : str -> str) (entry : SRTEntry) : SRTEntry :=
  mkEntry (index entry) (startTime entry) (endTime entry) (tr (text entry)).

(** A translator that fails on the text ["Hi"] and returns any other text
    unchanged. *)
Definition ex_failing_translator (t lang : str) : settlement str unit :=
  if bool_decide (t = lit "Hi") then Rejected tt else Fulfilled t.

Definition ex_state : state :=
  mkState (lit "hebrew") (Some (mkFile (lit "a.srt") ex_mixed)) (lit "old")
          false [] [].

(** Delays that make the later calls settle first. *)
Definition ex_delay (i : nat) : nat := 300 - 100 * i.


(** ** Well-formed entries and the blocks of a text

    Used by the properties of the round trip through [generateSRT] and
    [parseSRT]. *)

(** The first code unit exists and is not white space. *)
Definition starts_solid (s : str) : bool :=
  match s with
  | x :: _ => negb (is_space x)
  | [] => false
  end.

(** The last code unit exists and is not white space. *)
Definition ends_solid (s : str) : bool := starts_solid (rev s).

(** No newline of [s] is followed, after white space only, by another
    newline: [s] contains no match of [/\n\s*\n/]. *)
Fixpoint no_blank_line (s : str) : bool :=
  match s with
  | [] => true
  | x :: v =>
      negb ((x =? LF)%N && existsb (N.eqb LF) (take_while is_space v))
      && no_blank_line v
  end.

(** A text as [parseSRT] leaves it: not empty, trimmed, without a blank
    line. *)
Definition clean_text (t : str) : bool :=
  starts_solid t && ends_solid t && no_blank_line t.

(** An entry with two timecodes and a clean text. *)
Definition well_formed (e : SRTEntry) : bool :=
  is_timecode (startTime e) && is_timecode (endTime e) && clean_text (text e).

(** The entries with their indices replaced by their 1-based positions. *)
Definition renumber (entries : list SRTEntry) : list SRTEntry :=
  imap (fun i e => mkEntry (Int false (N.of_nat (i + 1)))
                           (startTime e) (endTime e) (text e))
       entries.

(** [Split r s pieces]: cutting [s] at the leftmost matches of [r], each
    search starting where the previous match ended, gives [pieces]; [r]
    matches at no place of a piece. *)
Inductive Split (r : regex) : str -> list str -> Prop :=
  | Split_last p :
      (forall u x v, p = u ++ x :: v -> match_here r (x :: v) = None) ->
      Split r p [p]
  | Split_cons p m rest ps :
      (forall u x v, p = u ++ x :: v ->
                     match_here r (x :: v ++ m ++ rest) = None) ->
      m <> [] ->
      match_here r (m ++ rest) = Some (rest, []) ->
      Split r rest ps ->
      Split r (p ++ m ++ rest) (p :: ps).

(** The block of an entry without its final newline, and the list of these
    for the entries at the positions [i], [i + 1], ... *)
Definition cue_text (i : nat) (entry : SRTEntry) : str :=
  number_to_string (i + 1) ++ [LF]
  ++ startTime entry ++ lit " --> " ++ endTime entry ++ [LF]
  ++ text entry.

Fixpoint cues_from (i : nat) (entries : list SRTEntry) : list str :=
  match entries with
  | [] => []
  | entry :: entries' => cue_text i entry :: cues_from (S i) entries'
  end.

(** Two well-formed sample entries, the second with a text of two lines. *)
Definition ex_entries : list SRTEntry :=
  [ex_entry NaN;
   mkEntry (Int false 40) (lit "00:00:05,000") (lit "00:00:02,000")
           (lit "Line one" ++ [LF] ++ lit "Line two")].

(** ** The other handlers of the component *)

(** [String.prototype.endsWith] without a position argument. *)
Definition endsWith (s search : str) : bool :=
  if length search <=? length s
  then bool_decide (drop (length s - length search) s = search)
  else false.

Definition setFile (v : option File) (st : state) : state :=
  mkState (selectedLanguage st) v (translatedSRT st) (isTranslating st)
          (originalEntries st) (toasts st).
Definition setSelectedLanguage (v : str) (st : state) : state :=
  mkState v (file st) (translatedSRT st) (isTranslating st)
          (originalEntries st) (toasts st).

Definition msg_bad_file : str :=
  [1488; 1504; 1488; 32; 1489; 1495; 1512; 32; 1511; 1493; 1489; 1509; 32;
   83; 82; 84; 32; 1514; 1511; 1497; 1503]%N.
Definition msg_loaded : str :=
  [1511; 1493; 1489; 1509; 32; 1504; 1496; 1506; 1503; 32; 1489; 1492; 1510;
   1500; 1495; 1492; 33]%N.
Definition msg_downloaded : str :=
  [1492; 1511; 1493; 1489; 1509; 32; 1492; 1502; 1514; 1493; 1512; 1490;
   1501; 32; 1492; 1493; 1512; 1491; 32; 1489; 1492; 1510; 1500; 1495; 1492;
   33]%N.

(** The file that the browser is told to save: the string given to the
    [Blob] (its encoding to bytes is not unfolded), the type of the blob and
    the [download] attribute of the link. *)
Record download : Type := mkDownload {
  blob_text : str;
  blob_type : str;
  download_name : str
}.

(** [handleDownload]: the state after it and the download it starts, if
    any.  The link element is created, clicked and removed within the
    call. *)
Definition handleDownload (st : state) : state * option download :=
  match translatedSRT st with
  | [] => (st, None)
  | _ :: _ =>
      let file_name :=
        match file st with
        | Some f => match name f with
                    | [] => lit "subtitles.srt"
                    | _ :: _ => name f
                    end
        | None => lit "subtitles.srt"
        end in
      (show (toast_success msg_downloaded) st,
       Some (mkDownload (translatedSRT st) (lit "text/plain;charset=utf-8")
                        (lit "translated_" ++ file_name)))
  end.

(** The [disabled] attribute of the translate button. *)
Definition translate_disabled (st : state) : bool :=
  match file st, selectedLanguage st with
  | None, _ | _, [] => true
  | Some _, _ :: _ => isTranslating st
  end.

(** The two items of the language select. *)
Inductive language : Type := Hebrew | English.

Definition language_value (l : language) : str :=
  match l with
  | Hebrew => lit "hebrew"
  | English => lit "english"
  end.

(** What the user can do. *)
Inductive action : Type :=
  | PickFile (selectedFile : option File)
  | PickLanguage (l : language)
  | ClickTranslate
  | ClickDownload.

Definition initial_state : state := mkState [] None [] false [] [].

(** ASCII lower-casing, the behaviour of [toLowerCase] on ASCII names. *)
Definition ascii_lower (c : N) : N :=
  (if (65 <=? c) && (c <=? 90) then c + 32 else c)%N.

Section Session.
(** [String.prototype.toLowerCase]: the case table of Unicode is not part of
    the source and is taken as a parameter. *)
Variable toLowerCase : str -> str.

(** [handleFileSelect], given [event.target.files?.[0]]. *)
Definition handleFileSelect (selectedFile : option File) (st : state)
  : state :=
  match selectedFile with
  | Some f =>
      if negb (endsWith (toLowerCase (name f)) (lit ".srt"))
      then show (toast_error msg_bad_file) st
      else show (toast_success msg_loaded)
             (setTranslatedSRT [] (setFile (Some f) st))
  | None => st
  end.

(** One action of the user, each handler running to its end before the
    next action: the new state and the download started, if any.  A
    disabled translate button and a download button that is not rendered
    receive no click. *)
Definition step (st : state) (a : action)
  : result (state * option download) :=
  match a with
  | PickFile selectedFile => Ok (handleFileSelect selectedFile st, None)
  | PickLanguage l => Ok (setSelectedLanguage (language_value l) st, None)
  | ClickTranslate =>
      if translate_disabled st then Ok (st, None)
      else st' ← handleTranslate st; Ok (st', None)
  | ClickDownload =>
      match translatedSRT st with
      | [] => Ok (st, None)
      | _ :: _ => Ok (handleDownload st)
      end
  end.

(** A session: the final state and the downloads, the latest last. *)
Fixpoint run (st : state) (downloads : list download) (actions : list action)
  : result (state * list download) :=
  match actions with
  | [] => Ok (st, downloads)
  | a :: actions' =>
      '(st', d) ← step st a;
      run st' (downloads ++ option_list d) actions'
  end.
End Session.

(** A translation produced by the handler from the content of a file. *)
Definition translation_of (f : File) (out : str) : Prop :=
  exists l entries,
    parseSRT (content f) = Ok entries
    /\ out = generateSRT
               (translated (fun t => translateText t (language_value l))
                <$> entries).


(** The name under which the result for a file is saved. *)
Definition saved_name (f : File) : str :=
  lit "translated_"
  ++ match name f with [] => lit "subtitles.srt" | _ :: _ => name f end.

(** Sample files and a sample session. *)
Definition ex_file : File := mkFile (lit "Movie.SRT") ex_mixed.
Definition ex_other : File := mkFile (lit "notes.txt") ex_mixed.
Definition ex_session : list action :=
  [PickFile (Some ex_file); ClickTranslate; PickLanguage Hebrew;
   ClickTranslate; ClickDownload; PickFile (Some ex_other); ClickDownload;
   PickFile (Some ex_file); ClickDownload].


(** The notifications of a session in which nothing goes wrong. *)
Definition allowed_toast (t : toast) : Prop :=
  t = toast_error msg_bad_file \/ t = toast_success msg_loaded
  \/ t = toast_success msg_done \/ t = toast_success msg_downloaded.

Section SessionInvariant.
Variable toLowerCase : str -> str.

(** A file that [handleFileSelect] accepts. *)
Definition accepted (f : File) : Prop :=
  endsWith (toLowerCase (name f)) (lit ".srt") = true.

(** What holds between the actions of a session. *)
Definition session_inv (st : state) : Prop :=
  isTranslating st = false
  /\ (selectedLanguage st = []
      \/ exists l, selectedLanguage st = language_value l)
  /\ (forall f, file st = Some f -> accepted f)
  /\ (translatedSRT st = []
      \/ exists f entries,
           file st = Some f /\ translation_of f (translatedSRT st)
           /\ parseSRT (content f) = Ok entries
           /\ originalEntries st = entries)
  /\ Forall allowed_toast (toasts st).

(** A download that carries the translation of an accepted file under the
    name made from the name of that file. *)
Definition download_ok (d : download) : Prop :=
  exists f,
    accepted f /\ translation_of f (blob_text d) /\ blob_text d <> []
    /\ download_name d = saved_name f
    /\ blob_type d = lit "text/plain;charset=utf-8".

(** *** A session read from its actions

    What is selected and shown after the actions [hist], said on the list
    of the actions alone. *)






End SessionInvariant.

(** The last four code units are [.srt], in lower or upper case. *)
Definition has_srt_extension (n : str) : bool :=
  match rev n with
  | t :: r :: s :: d :: _ =>
      ((d =? 46) && ((s =? 115) || (s =? 83)) && ((r =? 114) || (r =? 82))
       && ((t =? 116) || (t =? 84)))%N
  | _ => false
  end.

Definition is_ascii (c : N) : bool := (c <? 128)%N.

(** What [/\n\s*\n/] asks of the text after the white space it took: the
    closing newline. *)
Definition blank_tail (s : str) : option (str * list str) :=
  match s with
  | c :: s' => if (LF =? c)%N then Some (s', []) else None
  | [] => None
  end.
(** * Properties *)

(** ** Strings: white space, lines and joins *)

Lemma trimStart_spec s :
  exists w, s = w ++ trimStart s /\ Forall (fun x => is_space x = true) w.
Proof.
  induction s as [|x s (w & Hs & Hw)]; simpl; [by exists []|].
  destruct (is_space x) eqn:Hx; [|by exists []].
  exists (x :: w). split; [by rewrite Hs at 1 | by constructor].
Qed.

Lemma trimStart_head s :
  match trimStart s with
  | c :: _ => is_space c = false
  | [] => True
  end.
Proof.
  induction s as [|x s IH]; simpl; [done|].
  by destruct (is_space x) eqn:Hx.
Qed.

Lemma trimStart_id c s : is_space c = false -> trimStart (c :: s) = c :: s.
Proof. intros H. simpl. by rewrite H. Qed.

Lemma trimEnd_spec t :
  exists w, t = trimEnd t ++ w /\ Forall (fun x => is_space x = true) w.
Proof.
  unfold trimEnd. destruct (trimStart_spec (rev t)) as (w & Ht & Hw).
  exists (rev w). split.
  - rewrite <- rev_app_distr, <- Ht. by rewrite rev_involutive.
  - by apply Forall_rev.
Qed.

Lemma trimEnd_cons c t :
  is_space c = false -> exists u w, trimEnd (c :: t) = c :: u /\ t = u ++ w.
Proof.
  intros Hc. destruct (trimEnd_spec (c :: t)) as (w & Ht & Hw).
  destruct (trimEnd (c :: t)) as [|c' u].
  - simpl in Ht. subst w. inversion Hw; congruence.
  - injection Ht as <- ->. by exists u, w.
Qed.

Lemma trim_infix s : exists u v, s = u ++ trim s ++ v.
Proof.
  unfold trim. destruct (trimStart_spec s) as (u & Hu & _).
  destruct (trimEnd_spec (trimStart s)) as (v & Hv & _).
  exists u, v. by rewrite <- Hv.
Qed.

(** What [trim] removes: white space before and after, and all of it. *)
Lemma trim_spec s :
  exists w w',
    s = w ++ trim s ++ w'
    /\ Forall (fun x => is_space x = true) w
    /\ Forall (fun x => is_space x = true) w'
    /\ (forall c t, trim s = c :: t -> is_space c = false)
    /\ (forall t c, trim s = t ++ [c] -> is_space c = false).
Proof.
  unfold trim. destruct (trimStart_spec s) as (w & Hw & Hsw).
  pose proof (trimStart_head s) as Hh.
  set (u := trimStart s) in *.
  destruct (trimEnd_spec u) as (w' & Hw' & Hsw').
  exists w, w'. split_and!; try done.
  - by rewrite <- Hw'.
  - intros c t Ht. rewrite Ht in Hw'. by rewrite Hw' in Hh.
  - intros t c Ht. unfold trimEnd in Ht.
    pose proof (trimStart_head (rev u)) as Hr.
    apply (f_equal (@rev N)) in Ht.
    rewrite rev_involutive, rev_app_distr in Ht. simpl in Ht.
    by rewrite Ht in Hr.
Qed.

Lemma split_char_nonempty sep s : split_char sep s <> [].
Proof.
  destruct s as [|x s]; simpl; [done|].
  destruct (x =? sep)%N; [done|]. by destruct (split_char sep s).
Qed.

Lemma split_char_cut a b :
  LF ∉ a -> split_char LF (a ++ LF :: b) = a :: split_char LF b.
Proof.
  induction a as [|x a IH]; intros Ha; simpl.
  - done.
  - apply not_elem_of_cons in Ha as [Hx Ha].
    rewrite IH by done. by destruct (N.eqb_spec x LF).
Qed.

(** No line holds the separator. *)
Lemma split_char_no_sep sep s : Forall (fun l => sep ∉ l) (split_char sep s).
Proof.
  induction s as [|x s IH]; simpl.
  - constructor; [apply not_elem_of_nil | done].
  - destruct (N.eqb_spec x sep) as [->|Hx].
    + constructor; [apply not_elem_of_nil | done].
    + destruct (split_char sep s) as [|l ls].
      * constructor; [|done]. rewrite not_elem_of_cons. split; [done|].
        apply not_elem_of_nil.
      * inversion IH as [|? ? Hl Hls]; subst. constructor; [|done].
        rewrite not_elem_of_cons. split; [done | done].
Qed.

Lemma join_cons sep x l :
  join sep (x :: l) = x ++ (if l is [] then [] else sep ++ join sep l).
Proof. destruct l; simpl; by rewrite ?app_nil_r. Qed.

(** Joining the lines of a text gives the text back. *)
Lemma join_split_char sep s : join [sep] (split_char sep s) = s.
Proof.
  induction s as [|x s IH]; simpl; [done|].
  pose proof (split_char_nonempty sep s) as Hn.
  destruct (N.eqb_spec x sep) as [->|_];
    destruct (split_char sep s) as [|l ls]; try done.
  - change (join [sep] ([] :: l :: ls)) with (sep :: join [sep] (l :: ls)).
    by rewrite IH.
  - by rewrite join_cons, <- IH, join_cons.
Qed.

Lemma block_lines block line0 line1 line2 rest :
  split_char LF block = line0 :: line1 :: line2 :: rest ->
  block = line0 ++ [LF] ++ line1 ++ [LF] ++ join [LF] (line2 :: rest).
Proof.
  intros H. rewrite <- (join_split_char LF block) at 1. by rewrite H.
Qed.

Lemma join_snoc sep l x y :
  join sep (l ++ [x; y]) = join sep (l ++ [x]) ++ sep ++ y.
Proof.
  induction l as [|z l IH]; [done|].
  change ((z :: l) ++ [x; y]) with (z :: l ++ [x; y]).
  change ((z :: l) ++ [x]) with (z :: l ++ [x]).
  destruct l as [|w l]; simpl in *; [by rewrite <- !app_assoc|].
  rewrite IH. by rewrite <- !app_assoc.
Qed.

Lemma join_app sep l1 x l2 :
  join sep (l1 ++ x :: l2)
  = if l1 is [] then join sep (x :: l2)
    else join sep l1 ++ sep ++ join sep (x :: l2).
Proof.
  induction l1 as [|z l1 IH]; [done|].
  change ((z :: l1) ++ x :: l2) with (z :: l1 ++ x :: l2).
  destruct l1 as [|w l1]; [done|].
  change (join sep (z :: (w :: l1) ++ x :: l2))
    with (z ++ sep ++ join sep ((w :: l1) ++ x :: l2)).
  rewrite IH. simpl. by rewrite <- !app_assoc.
Qed.

Lemma join_app_cons2 sep l1 x y l2 :
  join sep (l1 ++ x :: y :: l2)
  = join sep (l1 ++ [x]) ++ sep ++ join sep (y :: l2).
Proof.
  induction l1 as [|z l1 IH]; [done|].
  change ((z :: l1) ++ x :: y :: l2) with (z :: l1 ++ x :: y :: l2).
  change ((z :: l1) ++ [x]) with (z :: l1 ++ [x]).
  rewrite (join_cons sep z (l1 ++ [x])), (join_cons sep z), IH.
  destruct l1; simpl; by rewrite <- !app_assoc.
Qed.

Lemma join_snoc_tail sep l x :
  exists head, join sep (l ++ [x]) = head ++ x.
Proof.
  induction l as [|z l (head & IH)]; [by exists []|].
  change ((z :: l) ++ [x]) with (z :: l ++ [x]).
  rewrite join_cons, IH. exists (z ++ sep ++ head).
  destruct l; simpl; by rewrite <- !app_assoc.
Qed.


(** ** The matcher against a declarative reading of the patterns *)

Lemma take_matched (m s' : str) :
  take (length (m ++ s') - length s') (m ++ s') = m.
Proof.
  rewrite length_app.
  replace (length m + length s' - length s') with (length m) by lia.
  apply take_app_length.
Qed.

Lemma star_greedy_sound {A} p s (k : str -> option A) a :
  star_greedy p s k = Some a ->
  exists m s', s = m ++ s' /\ Forall (fun x => p x = true) m /\ k s' = Some a.
Proof.
  induction s as [|x s IH]; simpl; intros H.
  - by exists [], [].
  - destruct (p x) eqn:Hp; [|by exists [], (x :: s)].
    destruct (star_greedy p s k) as [b|] eqn:Hs; [|by exists [], (x :: s)].
    injection H as ->.
    destruct (IH eq_refl) as (m & s' & -> & Hm & Hk).
    exists (x :: m), s'. repeat split; [by constructor | done].
Qed.

Lemma star_greedy_complete {A} p m s' (k : str -> option A) :
  Forall (fun x => p x = true) m -> is_Some (k s') ->
  is_Some (star_greedy p (m ++ s') k).
Proof.
  intros Hm Hk. induction Hm as [|x m Hx _ IH]; simpl.
  - destruct s' as [|y s']; simpl; [done|].
    destruct (p y); [|done].
    by destruct (star_greedy p s' k).
  - rewrite Hx. by destruct IH as [b ->].
Qed.

Lemma rmatch_sound {A} r : forall s c (k : str -> list str -> option A) a,
  rmatch r s c k = Some a ->
  exists m s' c', s = m ++ s' /\ Matches r m c c' /\ k s' c' = Some a.
Proof.
  induction r as [|p|r1 IH1 r2 IH2|p|r IH]; simpl; intros s c k a H.
  - exists [], s, c. repeat split; [constructor | done].
  - destruct s as [|x s]; [done|]. destruct (p x) eqn:Hp; [|done].
    exists [x], s, c. repeat split; [by constructor | done].
  - apply IH1 in H as (m1 & s1 & c1 & -> & H1 & H).
    apply IH2 in H as (m2 & s2 & c2 & -> & H2 & H).
    exists (m1 ++ m2), s2, c2. rewrite <- app_assoc.
    repeat split; [by econstructor | done].
  - apply star_greedy_sound in H as (m & s' & -> & Hm & H).
    exists m, s', c. repeat split; [by constructor | done].
  - apply IH in H as (m & s' & c1 & -> & H1 & H).
    rewrite take_matched in H.
    exists m, s', (c1 ++ [m]). repeat split; [by constructor | done].
Qed.

Lemma rmatch_complete {A} r m c c' :
  Matches r m c c' ->
  forall s' (k : str -> list str -> option A),
    is_Some (k s' c') -> is_Some (rmatch r (m ++ s') c k).
Proof.
  induction 1 as [c|p x c Hp|r1 r2 m1 m2 c c1 c2 _ IH1 _ IH2|p m c Hm
                  |r m c c1 _ IH]; simpl; intros s' k Hk.
  - done.
  - by rewrite Hp.
  - rewrite <- app_assoc. apply IH1, IH2, Hk.
  - by apply star_greedy_complete.
  - apply IH. by rewrite take_matched.
Qed.

Lemma match_here_sound r s s' caps :
  match_here r s = Some (s', caps) ->
  exists m, s = m ++ s' /\ Matches r m [] caps.
Proof.
  intros H. apply rmatch_sound in H as (m & s1 & c1 & -> & Hm & [= -> ->]).
  by exists m.
Qed.

Lemma match_here_complete r m s' caps :
  Matches r m [] caps -> is_Some (match_here r (m ++ s')).
Proof. intros Hm. by apply (rmatch_complete r m [] caps Hm). Qed.

Lemma regex_exec_here r s s' caps :
  match_here r s = Some (s', caps) ->
  exists m, s = m ++ s' /\ Matches r m [] caps /\
            regex_exec r s = Some (m :: caps).
Proof.
  intros H. destruct (match_here_sound _ _ _ _ H) as (m & Hs & Hm).
  exists m. split; [done|]. split; [done|].
  rewrite <- (take_matched m s'), <- Hs.
  destruct s; simpl; by rewrite H.
Qed.

Lemma regex_exec_skip r x s :
  match_here r (x :: s) = None -> regex_exec r (x :: s) = regex_exec r s.
Proof. intros H. simpl. by rewrite H. Qed.

(** [regex_exec] finds the leftmost place where the pattern matches. *)
Lemma regex_exec_sound r : forall s res,
  regex_exec r s = Some res ->
  exists pre m post caps,
    res = m :: caps /\ s = pre ++ m ++ post /\ Matches r m [] caps /\
    forall pre' m' post' caps',
      s = pre' ++ m' ++ post' -> Matches r m' [] caps' ->
      length pre <= length pre'.
Proof.
  induction s as [|x s IH]; intros res.
  - simpl. destruct (match_here r []) as [[s' caps]|] eqn:Hm; [|done].
    intros [= <-]. apply match_here_sound in Hm as (m & Hs & Hm).
    symmetry in Hs. apply app_eq_nil in Hs as [-> ->].
    exists [], [], [], caps. repeat split; [done..|]. intros; simpl; lia.
  - destruct (match_here r (x :: s)) as [[s' caps]|] eqn:Hm.
    + destruct (regex_exec_here _ _ _ _ Hm) as (m & Hs & Hm' & ->).
      intros [= <-].
      exists [], m, s', caps. repeat split; [done..|]. intros; simpl; lia.
    + rewrite (regex_exec_skip _ _ _ Hm).
      intros H. apply IH in H as (pre & m & post & caps & -> & -> & Hm' & Hl).
      exists (x :: pre), m, post, caps. repeat split; [done..|].
      intros pre' m' post' caps' Hs' Hm''.
      destruct pre' as [|y pre'].
      * simpl in Hs'. rewrite Hs' in Hm.
        destruct (match_here_complete r m' post' caps' Hm'') as [? Hc].
        congruence.
      * injection Hs' as -> Hs'. simpl. apply le_n_S. by eapply Hl.
Qed.

Lemma regex_exec_complete r : forall s pre m post caps,
  s = pre ++ m ++ post -> Matches r m [] caps -> is_Some (regex_exec r s).
Proof.
  induction s as [|x s IH]; intros pre m post caps Hs Hm; simpl.
  - destruct pre; [|done]. simpl in Hs. rewrite Hs.
    destruct (match_here_complete r m post caps Hm) as [[s' c'] ->]. done.
  - destruct (match_here r (x :: s)) as [[s' c']|] eqn:Hmh; [done|].
    destruct pre as [|y pre].
    + simpl in Hs. rewrite Hs in Hmh.
      destruct (match_here_complete r m post caps Hm) as [? Hc]. congruence.
    + injection Hs as -> Hs. by eapply IH.
Qed.

(** ** The two patterns of the component *)

Ltac invert_matches :=
  repeat match goal with
    | H : Matches Eps _ _ _ |- _ => inversion H; subst; clear H
    | H : Matches (Class _) _ _ _ |- _ => inversion H; subst; clear H
    | H : Matches (Seq _ _) _ _ _ |- _ => inversion H; subst; clear H
    | H : Matches (Group _) _ _ _ |- _ => inversion H; subst; clear H
    | H : Matches (Star _) _ _ _ |- _ => inversion H; subst; clear H
    | H : (_ =? _)%N = true |- _ => apply N.eqb_eq in H; subst
    end.

Lemma Matches_chars s m c c' :
  Matches (chars s) m c c' <-> m = s /\ c' = c.
Proof.
  unfold chars. split.
  - revert m c c'. induction s as [|x s IH]; simpl; intros m c c' H.
    + by invert_matches.
    + inversion H as [| |r1 r2 m1 m2 c0 c1 c2 H1 H2| |]; subst; clear H.
      apply IH in H2 as [-> ->]. unfold chr in H1. by invert_matches.
  - intros [-> ->]. induction s as [|x s IH]; simpl; [constructor|].
    apply (M_seq _ _ [x] s c c c); [|done].
    constructor. apply N.eqb_refl.
Qed.

Lemma Matches_digits n m c :
  length m = n -> Forall (fun x => is_digit x = true) m ->
  Matches (digits n) m c c.
Proof.
  intros <- Hm. unfold digits.
  induction Hm as [|x m Hx _ IH]; simpl; [constructor|].
  apply (M_seq _ _ [x] m c c c); [by constructor | done].
Qed.

Lemma Matches_chr x c : Matches (chr x) [x] c c.
Proof. constructor. apply N.eqb_refl. Qed.

Lemma Matches_timecode m c c' :
  Matches timecode m c c' <-> is_timecode m = true /\ c' = c.
Proof.
  split.
  - intros H. cbv [timecode digits seqs replicate chr] in H.
    invert_matches. split; [|done]. simpl.
    repeat match goal with H : is_digit _ = true |- _ => rewrite H; clear H end.
    done.
  - intros [H ->].
    do 12 (destruct m as [|? m]; [simpl in H; discriminate|]).
    destruct m; [|simpl in H; discriminate].
    simpl in H. rewrite !andb_true_iff in H. destruct_and!.
    invert_matches. cbv [timecode seqs].
    repeat match goal with
      | |- Matches (Seq (digits 2) _) (?a :: ?b :: ?l) _ _ =>
          apply (M_seq _ _ [a; b] l c c c);
          [apply Matches_digits; [done | by repeat constructor]|]
      | |- Matches (Seq (digits 3) _) (?a :: ?b :: ?d :: ?l) _ _ =>
          apply (M_seq _ _ [a; b; d] l c c c);
          [apply Matches_digits; [done | by repeat constructor]|]
      | |- Matches (Seq (chr ?x) _) (?x :: ?l) _ _ =>
          apply (M_seq _ _ [x] l c c c); [apply Matches_chr|]
      end.
    constructor.
Qed.

Lemma Matches_time_pattern m c c' :
  Matches time_pattern m c c' <->
  exists t1 t2, m = t1 ++ lit " --> " ++ t2 /\ c' = c ++ [t1; t2]
                /\ is_timecode t1 = true /\ is_timecode t2 = true.
Proof.
  unfold time_pattern. cbn [seqs]. split.
  - intros H.
    inversion H as [| |r1 r2 m1 m2 c0 c1 c2 H1 H2| |]; subst; clear H.
    inversion H2 as [| |r1 r2 m3 m4 c0 c3 c4 H3 H4| |]; subst; clear H2.
    inversion H4 as [| |r1 r2 m5 m6 c0 c5 c6 H5 H6| |]; subst; clear H4.
    inversion H6; subst; clear H6.
    inversion H1; subst; clear H1. inversion H5; subst; clear H5.
    apply Matches_chars in H3 as [-> ->].
    repeat match goal with
      | H : Matches timecode _ _ _ |- _ => apply Matches_timecode in H as [? ->]
      end.
    exists m1, m5. rewrite app_nil_r, <- app_assoc. done.
  - intros (t1 & t2 & -> & -> & H1 & H2).
    apply (M_seq _ _ t1 _ c (c ++ [t1])).
    { constructor. by apply Matches_timecode. }
    apply (M_seq _ _ (lit " --> ") _ _ (c ++ [t1])).
    { by apply Matches_chars. }
    rewrite <- (app_nil_r t2) at 1.
    apply (M_seq _ _ t2 [] _ ((c ++ [t1]) ++ [t2])).
    { constructor. by apply Matches_timecode. }
    rewrite <- app_assoc. constructor.
Qed.

(** The second line of a block passes [match] exactly when it contains a
    time range; the match array then holds the leftmost one. *)
Lemma string_match_time_Some line res :
  string_match line time_pattern = Some res ->
  exists pre t1 t2 post,
    res = [t1 ++ lit " --> " ++ t2; t1; t2]
    /\ line = pre ++ t1 ++ lit " --> " ++ t2 ++ post
    /\ is_timecode t1 = true /\ is_timecode t2 = true
    /\ forall pre' u1 u2 post',
         line = pre' ++ u1 ++ lit " --> " ++ u2 ++ post' ->
         is_timecode u1 = true -> is_timecode u2 = true ->
         length pre <= length pre'.
Proof.
  intros H. apply regex_exec_sound in H
    as (pre & m & post & caps & -> & -> & Hm & Hleft).
  apply Matches_time_pattern in Hm as (t1 & t2 & -> & -> & H1 & H2).
  exists pre, t1, t2, post. rewrite <- !app_assoc.
  repeat split; [done..|].
  intros pre' u1 u2 post' Hl Hu1 Hu2.
  apply (Hleft pre' (u1 ++ lit " --> " ++ u2) post' [u1; u2]).
  - by rewrite <- !app_assoc in *.
  - apply Matches_time_pattern. by exists u1, u2.
Qed.

Lemma string_match_time_is_Some line :
  has_time_range line -> is_Some (string_match line time_pattern).
Proof.
  intros (pre & t1 & t2 & post & -> & H1 & H2).
  apply (regex_exec_complete _ _ pre (t1 ++ lit " --> " ++ t2) post [t1; t2]).
  - by rewrite <- !app_assoc.
  - apply Matches_time_pattern. by exists t1, t2.
Qed.

Lemma string_match_time_None line :
  string_match line time_pattern = None <-> ~ has_time_range line.
Proof.
  split.
  - intros H Hr. apply string_match_time_is_Some in Hr as [? ?]. congruence.
  - intros Hn. destruct (string_match line time_pattern) as [res|] eqn:H; [|done].
    apply string_match_time_Some in H as (pre & t1 & t2 & post & _ & -> & ? & ? & _).
    destruct Hn. by exists pre, t1, t2, post.
Qed.

(** ** The parser returns *)

Lemma match_here_length r s s' caps :
  match_here r s = Some (s', caps) -> length s' <= length s.
Proof.
  intros H. apply match_here_sound in H as (m & -> & _).
  rewrite length_app. lia.
Qed.

(** The loop of [split] ends within its bound: each turn either moves one
    code unit to the current piece or restarts after a match. *)
Lemma split_loop_returns r : forall fuel cur rest,
  2 * length rest + (if cur is [] then 0 else 1) < fuel ->
  exists pieces, split_loop fuel r cur rest = Ok pieces.
Proof.
  induction fuel as [|fuel IH]; intros cur rest Hf; [lia|].
  simpl. destruct rest as [|x rest]; [by eexists|].
  assert (Hstep : exists pieces,
            split_loop fuel r (x :: cur) rest = Ok pieces).
  { apply IH. simpl in *. destruct cur; lia. }
  destruct (match_here r (x :: rest)) as [[after caps]|] eqn:Hm; [|done].
  destruct (bool_decide (cur = []) && (length after =? length (x :: rest)))
    eqn:Hp; [done|].
  apply match_here_length in Hm.
  destruct (IH [] after) as [pieces ->]; [|by eexists].
  apply andb_false_iff in Hp as [Hp|Hp].
  - apply bool_decide_eq_false in Hp. destruct cur; [done|]. simpl in *. lia.
  - apply Nat.eqb_neq in Hp. simpl in *. destruct cur; lia.
Qed.

Lemma regex_split_returns s r : exists pieces, regex_split s r = Ok pieces.
Proof.
  unfold regex_split. destruct s as [|x s].
  - destruct (match_here r []); by eexists.
  - apply split_loop_returns. simpl. lia.
Qed.

(** *** The pieces of a split, put back together *)




(** The callback pushes the entry of the block, or nothing, and never
    throws. *)
Lemma parse_block_entry entries block :
  parse_block entries block = Ok (entries ++ option_list (block_entry block)).
Proof.
  unfold parse_block, block_entry.
  destruct (split_char LF block) as [|line0 [|line1 [|line2 lines]]];
    simpl; rewrite ?app_nil_r; try done.
  destruct (string_match line1 time_pattern) as [res|] eqn:Hm;
    simpl; rewrite ?app_nil_r; [|done].
  apply string_match_time_Some in Hm
    as (pre & t1 & t2 & post & -> & _). done.
Qed.

Lemma forEach_parse_block blocks : forall entries,
  forEach parse_block blocks entries
  = Ok (entries ++ omap block_entry blocks).
Proof.
  induction blocks as [|b blocks IH]; intros entries; simpl.
  - by rewrite app_nil_r.
  - rewrite parse_block_entry. simpl. rewrite IH, <- app_assoc.
    by destruct (block_entry b).
Qed.

(** [parseSRT] returns the entries of the blocks of the trimmed content, in
    the order of the blocks. *)
Lemma parseSRT_blocks content :
  exists blocks,
    regex_split (trim content) blank_pattern = Ok blocks
    /\ parseSRT content = Ok (omap block_entry blocks).
Proof.
  destruct (regex_split_returns (trim content) blank_pattern) as [blocks H].
  exists blocks. split; [done|].
  unfold parseSRT. rewrite H. simpl. apply forEach_parse_block.
Qed.

(** ** The generator *)

Lemma uint_digits_digit d : Forall (fun x => is_digit x = true) (uint_digits d).
Proof. induction d; simpl; by constructor. Qed.

Lemma number_to_string_digit n :
  Forall (fun x => is_digit x = true) (number_to_string n).
Proof. apply uint_digits_digit. Qed.

Lemma number_to_string_nonempty n : number_to_string n <> [].
Proof.
  unfold number_to_string. intros H.
  assert (Hn : Nat.to_uint n = Nil) by (by destruct (Nat.to_uint n)).
  pose proof (Unsigned.of_to n) as Hof. rewrite Hn in Hof. simpl in Hof.
  subst n. discriminate Hn.
Qed.

Lemma number_to_string_head n :
  exists d rest, number_to_string n = d :: rest /\ is_digit d = true.
Proof.
  pose proof (number_to_string_digit n) as Hd.
  pose proof (number_to_string_nonempty n) as Hn.
  destruct (number_to_string n) as [|d rest]; [done|].
  exists d, rest. split; [done|]. by inversion Hd.
Qed.

(** *** The numeral of a position

    [number_to_string] against the reading of a decimal numeral on the
    code units. *)

Lemma numeral_value_uint d : forall acc : nat,
  fold_left (fun a c => (10 * a + (c - 48))%N) (uint_digits d) (N.of_nat acc)
  = N.of_nat (Nat.of_uint_acc d acc).
Proof.
  induction d; intros acc; simpl; [done|..];
    rewrite <- IHd; f_equal; rewrite Nat.tail_mul_spec; lia.
Qed.

Lemma to_uint_no_leading_zero n d : Nat.to_uint n = D0 d -> d = Nil.
Proof.
  intros H. pose proof (Unsigned.to_of (Nat.to_uint n)) as Hn.
  rewrite Unsigned.of_to, H in Hn. unfold unorm in Hn.
  rewrite DecimalFacts.nzhead_D0 in Hn.
  pose proof (DecimalFacts.nzhead_nonzero d) as Hz.
  destruct (nzhead d) as [|u|u|u|u|u|u|u|u|u|u]; try discriminate Hn.
  - by injection Hn.
  - by destruct (Hz u).
Qed.

Lemma number_to_string_numeral n : is_numeral_of (number_to_string n) n.
Proof.
  unfold is_numeral_of. split_and!.
  - apply number_to_string_nonempty.
  - eapply Forall_impl; [apply number_to_string_digit|].
    intros c Hc. unfold is_digit in Hc.
    apply andb_true_iff in Hc as [H1 H2]. apply N.leb_le in H1, H2. lia.
  - intros rest Hs. unfold number_to_string in Hs.
    destruct (Nat.to_uint n) as [|u|u|u|u|u|u|u|u|u|u] eqn:Hu;
      simpl in Hs; try discriminate Hs.
    injection Hs as <-. by rewrite (to_uint_no_leading_zero _ _ Hu).
  - unfold numeral_value, number_to_string.
    etransitivity; [apply (numeral_value_uint (Nat.to_uint n) 0)|].
    f_equal. apply Unsigned.of_to.
Qed.

Lemma numeral_value_snoc s c :
  numeral_value (s ++ [c]) = (10 * numeral_value s + (c - 48))%N.
Proof. unfold numeral_value. by rewrite fold_left_app. Qed.

Lemma numeral_fold_le s : forall a : N,
  (a <= fold_left (fun acc c => 10 * acc + (c - 48)) s a)%N.
Proof.
  induction s as [|c s IH]; intros a; simpl; [lia|].
  etransitivity; [|apply IH]. lia.
Qed.

Lemma numeral_value_pos c s : (49 <= c)%N -> (0 < numeral_value (c :: s))%N.
Proof.
  intros Hc. unfold numeral_value. cbn [fold_left].
  pose proof (numeral_fold_le s (10 * 0 + (c - 48))%N). lia.
Qed.

(** A number has one decimal numeral only. *)
Lemma numeral_unique s : forall s',
  s <> [] -> s' <> [] ->
  Forall (fun c => (48 <= c <= 57)%N) s ->
  Forall (fun c => (48 <= c <= 57)%N) s' ->
  (forall rest, s = 48%N :: rest -> rest = []) ->
  (forall rest, s' = 48%N :: rest -> rest = []) ->
  numeral_value s = numeral_value s' -> s = s'.
Proof.
  induction s as [|c t IH] using rev_ind;
    intros s' Hn Hn' Hd Hd' Hz Hz' Hv; [done|].
  destruct s' as [|c' t' _] using rev_ind; [done|].
  rewrite !numeral_value_snoc in Hv.
  apply Forall_app in Hd as [Hdt Hc]. apply Forall_app in Hd' as [Hdt' Hc'].
  inversion Hc as [|? ? Hc1 _]; inversion Hc' as [|? ? Hc1' _]; subst.
  assert (c = c' /\ numeral_value t = numeral_value t') as [-> Hvt] by lia.
  f_equal.
  assert (Hhead : forall x u (z : N), Forall (fun c => (48 <= c <= 57)%N) (x :: u) ->
            (forall rest, (x :: u) ++ [z] = 48%N :: rest -> rest = []) ->
            (0 < numeral_value (x :: u))%N
            /\ forall rest, x :: u = 48%N :: rest -> rest = []).
  { intros x u z Hxu Hzz. inversion Hxu as [|? ? Hx _]; subst.
    assert (x <> 48%N) as Hne.
    { intros ->. specialize (Hzz (u ++ [z]) eq_refl). by destruct u. }
    split; [apply numeral_value_pos; lia|]. by intros rest [= ? _]. }
  destruct t as [|x t0], t' as [|x' t0']; [done|..].
  - destruct (Hhead _ _ _ Hdt' Hz') as [Hp _].
    change (numeral_value []) with 0%N in Hvt. lia.
  - destruct (Hhead _ _ _ Hdt Hz) as [Hp _].
    change (numeral_value []) with 0%N in Hvt. lia.
  - destruct (Hhead _ _ _ Hdt Hz) as [_ Hz1].
    destruct (Hhead _ _ _ Hdt' Hz') as [_ Hz1'].
    by apply IH.
Qed.

Lemma is_numeral_of_unique s s' n :
  is_numeral_of s n -> is_numeral_of s' n -> s = s'.
Proof.
  intros (Hn & Hd & Hz & Hv) (Hn' & Hd' & Hz' & Hv').
  apply numeral_unique; try done. by rewrite Hv, Hv'.
Qed.

Lemma imap_blocks_from entries : forall n,
  imap (fun i e => block_text (n + i) e) entries = blocks_from n entries.
Proof.
  induction entries as [|e entries IH]; intros n; simpl; [done|].
  rewrite Nat.add_0_r. f_equal. rewrite <- IH. apply imap_ext.
  intros i x _. simpl. f_equal. lia.
Qed.

Lemma generateSRT_blocks entries :
  generateSRT entries = join [LF] (blocks_from 0 entries).
Proof.
  unfold generateSRT. f_equal. rewrite <- imap_blocks_from.
  by apply imap_ext.
Qed.

Lemma blocks_from_app E1 E2 : forall n,
  blocks_from n (E1 ++ E2)
  = blocks_from n E1 ++ blocks_from (n + length E1) E2.
Proof.
  induction E1 as [|e E1 IH]; intros n; simpl.
  - by rewrite Nat.add_0_r.
  - rewrite IH. do 3 f_equal. lia.
Qed.

Lemma length_blocks_from E : forall n, length (blocks_from n E) = length E.
Proof. induction E as [|e E IH]; intros n; simpl; [done|]. by rewrite IH. Qed.

Lemma lookup_blocks_from E : forall n i,
  blocks_from n E !! i = block_text (n + i) <$> E !! i.
Proof.
  induction E as [|e E IH]; intros n [|i]; simpl; try done.
  - by rewrite Nat.add_0_r.
  - rewrite IH. by replace (S n + i) with (n + S i) by lia.
Qed.

(** The output does not depend on the [index] fields. *)
Lemma blocks_from_same_cue E E' :
  Forall2 same_cue E E' -> forall n, blocks_from n E = blocks_from n E'.
Proof.
  induction 1 as [|e e' E E' (Hs & He & Ht) _ IH]; intros n; simpl; [done|].
  rewrite IH. unfold block_text. by rewrite Hs, He, Ht.
Qed.

Lemma generateSRT_same_cue E E' :
  Forall2 same_cue E E' -> generateSRT E = generateSRT E'.
Proof.
  intros H. rewrite !generateSRT_blocks. f_equal.
  by apply blocks_from_same_cue.
Qed.

Lemma is_digit_not_LF x : is_digit x = true -> x <> LF.
Proof.
  unfold is_digit, LF. intros H ->. discriminate H.
Qed.

Lemma digits_no_LF s : Forall (fun x => is_digit x = true) s -> LF ∉ s.
Proof.
  intros H Hin. rewrite Forall_forall in H.
  by apply (is_digit_not_LF LF (H _ Hin)).
Qed.

(** The output, block by block: the block at the position [i] begins with
    the numeral of [i + 1] on a line of its own. *)
Lemma generateSRT_numbered E :
  exists outs,
    generateSRT E = join [LF] outs
    /\ length outs = length E
    /\ forall i e, E !! i = Some e ->
         exists numeral,
           outs !! i
           = Some (numeral ++ [LF]
                   ++ startTime e ++ lit " --> " ++ endTime e ++ [LF]
                   ++ text e ++ [LF])
           /\ is_numeral_of numeral (i + 1)
           /\ (LF ∉ numeral).
Proof.
  exists (blocks_from 0 E). split_and!.
  - apply generateSRT_blocks.
  - apply length_blocks_from.
  - intros i e Hi. exists (number_to_string (i + 1)). split_and!.
    + by rewrite lookup_blocks_from, Hi.
    + apply number_to_string_numeral.
    + apply digits_no_LF, number_to_string_digit.
Qed.

(** The output for one more entry. *)
Lemma generateSRT_snoc E e e' :
  generateSRT (E ++ [e; e'])
  = generateSRT (E ++ [e]) ++ [LF] ++ block_text (length E + 1) e'.
Proof.
  rewrite !generateSRT_blocks, !blocks_from_app. cbn [blocks_from Nat.add].
  rewrite join_snoc. by rewrite Nat.add_1_r.
Qed.

Lemma is_timecode_length t : is_timecode t = true -> length t = 12.
Proof.
  intros H. do 12 (destruct t as [|? t]; [simpl in H; discriminate|]).
  by destruct t.
Qed.

Lemma is_timecode_no_LF t : is_timecode t = true -> LF ∉ t.
Proof.
  intros H. do 12 (destruct t as [|? t]; [simpl in H; discriminate|]).
  destruct t; [|simpl in H; discriminate].
  simpl in H. rewrite !andb_true_iff in H. destruct_and!.
  repeat match goal with
    | H : (_ =? _)%N = true |- _ => apply N.eqb_eq in H; subst
    | H : is_digit _ = true |- _ => apply is_digit_not_LF in H
    end.
  rewrite !not_elem_of_cons. repeat split; try done. apply not_elem_of_nil.
Qed.

(** ** Blocks and their entries *)

Lemma block_entry_Some block e :
  block_entry block = Some e ->
  exists line0 line1 line2 rest pre post,
    split_char LF block = line0 :: line1 :: line2 :: rest
    /\ index e = parseInt (trim line0)
    /\ line1 = pre ++ startTime e ++ lit " --> " ++ endTime e ++ post
    /\ is_timecode (startTime e) = true /\ is_timecode (endTime e) = true
    /\ text e = trim (join [LF] (line2 :: rest))
    /\ forall pre' u1 u2 post',
         line1 = pre' ++ u1 ++ lit " --> " ++ u2 ++ post' ->
         is_timecode u1 = true -> is_timecode u2 = true ->
         length pre <= length pre'.
Proof.
  unfold block_entry.
  destruct (split_char LF block) as [|line0 [|line1 [|line2 rest]]];
    try done.
  destruct (string_match line1 time_pattern) as [res|] eqn:Hm; [|done].
  apply string_match_time_Some in Hm
    as (pre & t1 & t2 & post & -> & Hl & H1 & H2 & Hleft).
  intros [= <-]. by exists line0, line1, line2, rest, pre, post.
Qed.

Lemma block_entry_accepts block line0 line1 line2 rest :
  split_char LF block = line0 :: line1 :: line2 :: rest ->
  has_time_range line1 ->
  exists t1 t2,
    block_entry block
    = Some (mkEntry (parseInt (trim line0)) t1 t2
                    (trim (join [LF] (line2 :: rest)))).
Proof.
  intros Hs Hr. unfold block_entry. rewrite Hs.
  destruct (string_match_time_is_Some _ Hr) as [res Hm]. rewrite Hm.
  apply string_match_time_Some in Hm as (pre & t1 & t2 & post & -> & _).
  by exists t1, t2.
Qed.

Lemma block_entry_malformed block : malformed block -> block_entry block = None.
Proof.
  unfold malformed, block_entry.
  destruct (split_char LF block) as [|line0 [|line1 [|line2 rest]]];
    try done.
  intros [Hl|(l & [= <-] & Hn)]; [simpl in Hl; lia|].
  apply string_match_time_None in Hn. by rewrite Hn.
Qed.

(** ** Claims on the parser *)

(** C3: malformed block dropping: a block with fewer than three lines, or
    whose second line holds no time range, leaves the entries of the
    callback unchanged and throws nothing; [parseSRT] returns the entries
    of its blocks, to which a malformed block contributes none; and the
    input ["5\nnot-a-timecode\nHello"] yields no entry. *)
Theorem malformed_block_dropped :
  (forall block, malformed block ->
     forall entries, parse_block entries block = Ok entries)
  /\ (forall content, exists blocks,
        regex_split (trim content) blank_pattern = Ok blocks
        /\ parseSRT content = Ok (omap block_entry blocks)
        /\ forall b, malformed b -> block_entry b = None)
  /\ malformed ex_malformed
  /\ parseSRT ex_malformed = Ok [].
Proof.
  split; [|split; [|split]].
  - intros block Hb entries.
    by rewrite parse_block_entry, block_entry_malformed, app_nil_r.
  - intros content. destruct (parseSRT_blocks content) as (blocks & Hs & Hp).
    exists blocks. repeat split; [done..|]. apply block_entry_malformed.
  - right. eexists. split; [by vm_compute|].
    apply string_match_time_None. by vm_compute.
  - by vm_compute.
Qed.

Lemma malformed_block_dropped_witness :
  malformed ex_two_lines
  /\ forall entries, parse_block entries ex_two_lines = Ok entries.
Proof.
  assert (H : malformed ex_two_lines) by (left; vm_compute; lia).
  split; [exact H|].
  exact (proj1 malformed_block_dropped ex_two_lines H).
Defined.

(** C6: multi-line caption preservation: for an accepted block (at least
    three lines, a time range in the second) the callback pushes one entry,
    whose text is the lines after the second joined with newline and then
    trimmed.  Said without [join] and [trim]: the block is its first line,
    a newline, its second line, a newline and a tail (the two lines holding
    no newline), and the tail is white space, then the text, then white
    space, where the text neither begins nor ends with a white-space code
    unit; what lies between, newlines included, is kept as it is.  The
    two-line caption of the sample block gives the single text
    ["Line one\nLine two"]; in the padded sample the space and the tab
    before the text and the space, the tab and the carriage return after
    it are removed, and the spaces around its inner newline stay. *)
Theorem multiline_caption_preserved :
  (forall block line0 line1 line2 rest,
     split_char LF block = line0 :: line1 :: line2 :: rest ->
     has_time_range line1 ->
     exists e,
       (forall entries, parse_block entries block = Ok (entries ++ [e]))
       /\ text e = trim (join [LF] (drop 2 (split_char LF block)))
       /\ exists tail w w',
            block = line0 ++ [LF] ++ line1 ++ [LF] ++ tail
            /\ (LF ∉ line0) /\ (LF ∉ line1)
            /\ tail = w ++ text e ++ w'
            /\ Forall (fun x => is_space x = true) w
            /\ Forall (fun x => is_space x = true) w'
            /\ (forall c t, text e = c :: t -> is_space c = false)
            /\ (forall t c, text e = t ++ [c] -> is_space c = false))
  /\ parseSRT ex_multiline
     = Ok [mkEntry (Int false 1) (lit "00:00:01,000") (lit "00:00:02,000")
                   (lit "Line one" ++ [LF] ++ lit "Line two")]
  /\ parseSRT ex_padded
     = Ok [mkEntry (Int false 1) (lit "00:00:01,000") (lit "00:00:02,000")
                   (lit "Line one " ++ [LF] ++ lit "  Line two");
           mkEntry (Int false 2) (lit "00:00:03,000") (lit "00:00:04,000")
                   (lit "Bye")]
  /\ (forall entries,
        parse_block entries ex_padded_block
        = Ok (entries
              ++ [mkEntry (Int false 1) (lit "00:00:01,000")
                          (lit "00:00:02,000")
                          (lit "Line one " ++ [LF] ++ lit "  Line two")])).
Proof.
  split; [|split; [by vm_compute|split; [by vm_compute|]]].
  - intros block line0 line1 line2 rest Hs Hr.
    destruct (block_entry_accepts _ _ _ _ _ Hs Hr) as (t1 & t2 & He).
    eexists. split; [|split].
    + intros entries. by rewrite parse_block_entry, He.
    + by rewrite Hs.
    + cbn [text].
      destruct (trim_spec (join [LF] (line2 :: rest)))
        as (w & w' & Hw & Hsw & Hsw' & Hfirst & Hlast).
      pose proof (split_char_no_sep LF block) as Hlf. rewrite Hs in Hlf.
      inversion Hlf as [|? ? H0 Hlf1]; subst.
      inversion Hlf1 as [|? ? H1 _]; subst.
      exists (join [LF] (line2 :: rest)), w, w'. split_and!; try done.
      by apply block_lines.
  - intros entries. rewrite parse_block_entry. by vm_compute.
Qed.

Lemma multiline_example_lines :
  split_char LF ex_multiline
  = [lit "1"; lit "00:00:01,000 --> 00:00:02,000"; lit "Line one";
     lit "Line two"].
Proof. by vm_compute. Qed.

Lemma sample_time_range : has_time_range (lit "00:00:01,000 --> 00:00:02,000").
Proof. by exists [], (lit "00:00:01,000"), (lit "00:00:02,000"), []. Qed.

Lemma padded_example_lines :
  split_char LF ex_padded_block
  = [lit "1"; lit "00:00:01,000 --> 00:00:02,000";
     [32; 9]%N ++ lit "Line one "; lit "  Line two" ++ [32; 9; CR]%N].
Proof. by vm_compute. Qed.

Lemma multiline_caption_preserved_witness :
  exists e,
    (forall entries,
       parse_block entries ex_padded_block = Ok (entries ++ [e]))
    /\ text e = trim (join [LF] (drop 2 (split_char LF ex_padded_block)))
    /\ exists tail w w',
         ex_padded_block
         = lit "1" ++ [LF] ++ lit "00:00:01,000 --> 00:00:02,000" ++ [LF]
           ++ tail
         /\ (LF ∉ lit "1") /\ (LF ∉ lit "00:00:01,000 --> 00:00:02,000")
         /\ tail = w ++ text e ++ w'
         /\ Forall (fun x => is_space x = true) w
         /\ Forall (fun x => is_space x = true) w'
         /\ (forall c t, text e = c :: t -> is_space c = false)
         /\ (forall t c, text e = t ++ [c] -> is_space c = false).
Proof.
  exact (proj1 multiline_caption_preserved ex_padded_block _ _ _ _
           padded_example_lines sample_time_range).
Defined.

(** ** White space and the index line *)










(** ** Claims on the generator and the round trip *)

Lemma block_text_head i e :
  exists d rest, block_text i e = d :: rest /\ is_digit d = true.
Proof.
  unfold block_text.
  destruct (number_to_string_head (i + 1)) as (d & rest & -> & Hd).
  by eexists _, _.
Qed.


Lemma arrow_no_LF : LF ∉ lit " --> ".
Proof.
  assert (lit " --> " = [32; 45; 45; 62; 32]%N) as -> by (by vm_compute).
  rewrite !not_elem_of_cons. split_and!; try done. apply not_elem_of_nil.
Qed.


(** C4: generator output format: the output is the blocks of the entries,
    each of the shape [<i+1>\n<startTime> --> <endTime>\n<text>\n] for the
    0-based position [i], joined with one newline; the empty list gives the
    empty string; a non-empty output begins with a digit (no leading blank
    line); and after the last line of a block that is followed by another
    come exactly one empty line and then the digit that begins the next
    block.  The [<i+1>] of a block is the decimal numeral of [i + 1], as
    [is_numeral_of] reads it on the code units: digits only, no leading
    zero, of value [i + 1].  The last two parts give the output without
    any reference to [join]: for one entry it is the block numbered ["1"],
    and one more entry adds a newline and the block of that entry,
    numbered with its 1-based position. *)
Theorem generator_output_format :
  (forall E, generateSRT E = join [LF] (blocks_from 0 E))
  /\ generateSRT [] = []
  /\ (forall e E, exists d rest,
        generateSRT (e :: E) = d :: rest /\ is_digit d = true)
  /\ (forall E1 e e' E2, exists head d rest,
        generateSRT (E1 ++ [e]) = head ++ text e ++ [LF]
        /\ generateSRT (E1 ++ e :: e' :: E2)
           = head ++ text e ++ [LF] ++ [LF] ++ d :: rest
        /\ is_digit d = true)
  /\ (forall E, exists outs,
        generateSRT E = join [LF] outs
        /\ length outs = length E
        /\ forall i e, E !! i = Some e ->
             exists numeral,
               outs !! i
               = Some (numeral ++ [LF]
                       ++ startTime e ++ lit " --> " ++ endTime e ++ [LF]
                       ++ text e ++ [LF])
               /\ is_numeral_of numeral (i + 1))
  /\ (forall e,
        generateSRT [e]
        = lit "1" ++ [LF] ++ startTime e ++ lit " --> " ++ endTime e ++ [LF]
          ++ text e ++ [LF])
  /\ (forall E e e', exists numeral,
        generateSRT (E ++ [e; e'])
        = generateSRT (E ++ [e]) ++ [LF]
          ++ numeral ++ [LF]
          ++ startTime e' ++ lit " --> " ++ endTime e' ++ [LF]
          ++ text e' ++ [LF]
        /\ is_numeral_of numeral (length E + 2))
  /\ (forall s n, is_numeral_of s n -> forall s', is_numeral_of s' n -> s = s')
  /\ is_numeral_of (lit "10") 10.
Proof.
  split; [apply generateSRT_blocks|]. split; [done|].
  split; [|split; [|split; [|split; [|split; [|split]]]]].
  - intros e E. rewrite generateSRT_blocks. simpl blocks_from.
    rewrite join_cons.
    destruct (block_text_head 0 e) as (d & rest & -> & Hd).
    by eexists _, _.
  - intros E1 e e' E2. rewrite !generateSRT_blocks, !blocks_from_app.
    cbn [blocks_from Nat.add]. rewrite join_app_cons2.
    destruct (join_snoc_tail [LF] (blocks_from 0 E1)
                (block_text (length E1) e)) as (head & ->).
    rewrite join_cons.
    destruct (block_text_head (S (length E1)) e') as (d & rest & -> & Hd).
    unfold block_text.
    exists (head ++ number_to_string (length E1 + 1) ++ [LF]
            ++ startTime e ++ lit " --> " ++ endTime e ++ [LF]), d.
    eexists. split_and!; [| |done].
    + by rewrite <- !app_assoc.
    + rewrite <- !app_assoc. reflexivity.
  - intros E. destruct (generateSRT_numbered E) as (outs & Hj & Hl & Ho).
    exists outs. split_and!; [done..|].
    intros i e Hi. destruct (Ho i e Hi) as (numeral & Hb & Hn & _).
    by exists numeral.
  - intros e. by rewrite generateSRT_blocks.
  - intros E e e'. exists (number_to_string (length E + 1 + 1)). split.
    + apply generateSRT_snoc.
    + replace (length E + 2) with (length E + 1 + 1) by lia.
      apply number_to_string_numeral.
  - intros s n Hs s' Hs'. by apply (is_numeral_of_unique s s' n).
  - assert (lit "10" = [49; 48]%N) as -> by (by vm_compute).
    unfold is_numeral_of. split_and!.
    + done.
    + constructor; [lia|]. constructor; [lia|]. constructor.
    + by intros ? [=].
    + by vm_compute.
Qed.

(** C5: placeholder translation mapping: for the language ["hebrew"] the
    result is the Hebrew label followed by the text, for every other
    language it is ["Translation: "] followed by the text; the two labels
    differ and the text is always a suffix of the result. *)
Theorem placeholder_translation_mapping text :
  translateText text (lit "hebrew") = hebrew_prefix ++ text
  /\ (forall lang, lang <> lit "hebrew" ->
        translateText text lang = lit "Translation: " ++ text)
  /\ hebrew_prefix <> lit "Translation: "
  /\ (forall lang, exists prefix, translateText text lang = prefix ++ text).
Proof.
  unfold translateText. split_and!.
  - by rewrite bool_decide_eq_true_2.
  - intros lang Hl. by rewrite bool_decide_eq_false_2.
  - by vm_compute.
  - intros lang. destruct (bool_decide _); by eexists.
Qed.

Lemma placeholder_translation_mapping_witness :
  lit "french" <> lit "hebrew"
  /\ translateText (lit "Hi") (lit "french") = lit "Translation: " ++ lit "Hi".
Proof.
  assert (H : lit "french" <> lit "hebrew") by (by vm_compute).
  split; [exact H|].
  exact (proj1 (proj2 (placeholder_translation_mapping (lit "Hi"))) _ H).
Defined.


(** The mixed sample: declared indices 7 and "x", renumbered 1 and 2. *)
Lemma roundtrip_renumbering_example :
  (generateSRT <$> (match parseSRT ex_mixed with
                    | Ok entries => Some entries
                    | _ => None
                    end))
  = Some (lit "1" ++ [LF] ++ lit "00:00:01,000 --> 00:00:02,000" ++ [LF]
          ++ lit "Line one" ++ [LF] ++ lit "Line two" ++ [LF; LF]
          ++ lit "2" ++ [LF] ++ lit "00:00:05,000 --> 00:00:02,000" ++ [LF]
          ++ lit "Hi" ++ [LF]).
Proof. by vm_compute. Qed.



(** ** The join of the translations *)

Lemma insert_by_perm delay i l : insert_by delay i l ≡ₚ i :: l.
Proof.
  induction l as [|j l IH]; simpl; [done|].
  destruct (delay j <? delay i); [|done].
  rewrite IH. apply Permutation_swap.
Qed.

(** Every timer fires, and fires once. *)
Lemma fire_order_perm delay n : fire_order delay n ≡ₚ seq 0 n.
Proof.
  unfold fire_order. induction (seq 0 n) as [|i l IH]; simpl; [done|].
  by rewrite insert_by_perm, IH.
Qed.

(** With the equal delays of the component the timers fire in the order of
    the calls; with decreasing delays, in the opposite order. *)
Lemma fire_order_equal_delays c n : fire_order (fun _ => c) n = seq 0 n.
Proof.
  unfold fire_order. induction (seq 0 n) as [|i l IH]; simpl; [done|].
  rewrite IH. destruct l; simpl; [done|]. by rewrite Nat.ltb_irrefl.
Qed.

Lemma fire_order_example : fire_order ex_delay 3 = [2; 1; 0].
Proof. reflexivity. Qed.

Section PromiseAll.
Context {A R : Type}.
Variable outcomes : list (settlement A R).

Lemma settled_sticky l : forall (st : all_state A R) s,
  settled st = Some s ->
  settled (fold_left (all_step outcomes) l st) = Some s.
Proof.
  induction l as [|i l IH]; intros st s Hs; simpl; [done|].
  apply IH. unfold all_step, all_react.
  destruct (outcomes !! i) as [[v|e]|]; simpl; [|by rewrite Hs|done].
  destruct (remaining st - 1 =? 0); by rewrite ?Hs.
Qed.

(** While fulfilments arrive and some promise is still pending, the
    aggregate stays pending and the count goes down by one each time. *)
Lemma pending_steps l : forall st : all_state A R,
  Forall (fulfilled outcomes) l -> settled st = None -> length l < remaining st ->
  let st' := fold_left (all_step outcomes) l st in
  settled st' = None /\ remaining st' = remaining st - length l
  /\ length (values st') = length (values st).
Proof.
  induction l as [|i l IH]; intros st Hl Hs Hr; simpl in *.
  - split_and!; [done|lia|done].
  - inversion Hl as [|? ? [v Hv] Hl']; subst.
    destruct (IH (all_step outcomes st i)) as (H1 & H2 & H3); try done.
    + unfold all_step. rewrite Hv. simpl.
      destruct (Nat.eqb_spec (remaining st - 1) 0); [lia|done].
    + unfold all_step. rewrite Hv. simpl. lia.
    + split_and!; [done| |].
      * rewrite H2. unfold all_step. rewrite Hv. simpl. lia.
      * rewrite H3. unfold all_step. rewrite Hv. simpl.
        apply length_insert.
Qed.

(** The value of a fulfilled promise is at its own index once its
    settlement was reacted to, whatever came after. *)
Lemma value_stored l : forall (st : all_state A R) i v,
  Forall (fulfilled outcomes) l ->
  outcomes !! i = Some (Fulfilled v) -> i < length (values st) ->
  i ∈ l \/ values st !! i = Some (Some v) ->
  values (fold_left (all_step outcomes) l st) !! i = Some (Some v).
Proof.
  induction l as [|j l IH]; intros st i v Hl Hv Hi Hin; simpl.
  - destruct Hin as [Hin|Hin]; [by apply elem_of_nil in Hin | done].
  - inversion Hl as [|? ? [w Hw] Hl']; subst.
    apply IH; [done..| |].
    + unfold all_step. rewrite Hw. simpl. by rewrite length_insert.
    + unfold all_step. rewrite Hw. simpl.
      destruct (decide (i = j)) as [->|Hne].
      * right. rewrite list_lookup_insert_eq by done. congruence.
      * destruct Hin as [Hin|Hin].
        -- apply elem_of_cons in Hin as [?|?]; [done | by left].
        -- right. by rewrite list_lookup_insert_ne.
Qed.

(** The first rejection in a firing order. *)
Lemma first_rejected j e : forall l,
  Forall (fun i => i < length outcomes) l ->
  outcomes !! j = Some (Rejected e) -> j ∈ l ->
  exists l1 k l2 e',
    l = l1 ++ k :: l2 /\ Forall (fulfilled outcomes) l1
    /\ outcomes !! k = Some (Rejected e').
Proof.
  induction l as [|i l IH]; intros Hl Hj Hin.
  - by apply elem_of_nil in Hin.
  - inversion Hl as [|? ? Hi Hl']; subst.
    destruct (lookup_lt_is_Some_2 _ _ Hi) as [[v|e'] Ho].
    + assert (Hin' : j ∈ l).
      { apply elem_of_cons in Hin as [->|?]; [congruence | done]. }
      destruct (IH Hl' Hj Hin') as (l1 & k & l2 & e' & -> & Hf & Hk).
      exists (i :: l1), k, l2, e'. split_and!; [done| |done].
      constructor; [by exists v | done].
    + by exists [], i, l, e'.
Qed.

(** All-or-nothing: one rejection rejects the aggregate. *)
Lemma promise_all_rejected order j e :
  order ≡ₚ seq 0 (length outcomes) ->
  outcomes !! j = Some (Rejected e) ->
  exists e', settled (promise_all outcomes order) = Some (Rejected e').
Proof.
  intros Hp Hj.
  assert (Hn : j < length outcomes) by (by eapply lookup_lt_Some).
  assert (Hin : j ∈ order).
  { rewrite Hp. apply list_elem_of_In, in_seq. lia. }
  assert (Hl : Forall (fun i => i < length outcomes) order).
  { apply Forall_forall. intros i Hi. rewrite Hp in Hi.
    apply list_elem_of_In, in_seq in Hi. lia. }
  destruct (first_rejected j e order Hl Hj Hin)
    as (l1 & k & l2 & e' & Ho & Hf & Hk).
  exists e'. unfold promise_all. rewrite Ho, fold_left_app. simpl.
  apply settled_sticky.
  assert (Hlen : length order = length outcomes).
  { by rewrite Hp, length_seq. }
  rewrite Ho, length_app in Hlen. simpl in Hlen.
  destruct (pending_steps l1 (all_init (length outcomes)) Hf)
    as (Hs & _ & _).
  { unfold all_init. simpl.
    destruct (Nat.eqb_spec (length outcomes) 0); [lia|done]. }
  { simpl. lia. }
  unfold all_step at 1. rewrite Hk. simpl. by rewrite Hs.
Qed.
End PromiseAll.

(** Order preservation: when every promise is fulfilled, the aggregate is
    fulfilled with the values in the order of the promises, for every firing
    order. *)
Lemma promise_all_fulfilled {A R} (vs : list A) order :
  order ≡ₚ seq 0 (length vs) ->
  settled (promise_all (R := R) (Fulfilled <$> vs) order)
  = Some (Fulfilled (Some <$> vs)).
Proof.
  intros Hp. set (outcomes := Fulfilled (R := R) <$> vs).
  assert (Hlo : length outcomes = length vs) by apply length_fmap.
  assert (Hlen : length order = length vs) by (by rewrite Hp, length_seq).
  assert (Hf : Forall (fulfilled outcomes) order).
  { apply Forall_forall. intros i Hi. rewrite Hp in Hi.
    apply list_elem_of_In, in_seq in Hi.
    destruct (lookup_lt_is_Some_2 vs i) as [v Hv]; [lia|].
    exists v. unfold outcomes. by rewrite list_lookup_fmap, Hv. }
  unfold promise_all. rewrite Hlo.
  destruct order as [|i0 order0] using rev_ind.
  { destruct vs; [done | simpl in Hlen; lia]. }
  clear IHorder0. rewrite length_app in Hlen. simpl in Hlen.
  assert (Hst :
    settled (fold_left (all_step outcomes) (order0 ++ [i0])
               (all_init (length vs)))
    = Some (Fulfilled
              (values (fold_left (all_step outcomes) (order0 ++ [i0])
                         (all_init (length vs)))))).
  { rewrite fold_left_app. simpl.
    apply Forall_app in Hf as [Hf0 Hfi].
    destruct (pending_steps outcomes order0 (all_init (length vs)) Hf0)
      as (Hs & Hr & _).
    { unfold all_init. simpl.
      destruct (Nat.eqb_spec (length vs) 0); [lia|done]. }
    { simpl. lia. }
    inversion Hfi as [|? ? [v Hv] _]; subst.
    unfold all_step at 1 3. rewrite Hv. simpl. rewrite Hr, Hs. simpl.
    by replace (length vs - length order0 - 1) with 0 by lia. }
  rewrite Hst. do 2 f_equal.
  apply list_eq. intros k. rewrite list_lookup_fmap.
  destruct (vs !! k) as [v|] eqn:Hk; simpl.
  - apply value_stored; [done| | |].
    + unfold outcomes. by rewrite list_lookup_fmap, Hk.
    + simpl. rewrite length_replicate. by eapply lookup_lt_Some.
    + left. rewrite Hp. apply list_elem_of_In, in_seq.
      apply lookup_lt_Some in Hk. lia.
  - apply lookup_ge_None. apply lookup_ge_None in Hk.
    assert (Hv : length (values (fold_left (all_step outcomes)
                           (order0 ++ [i0]) (all_init (length vs))))
                 = length vs); [|lia].
    clear Hst Hk. generalize (order0 ++ [i0]) as l.
    intros l. rewrite <- (length_replicate (length vs) (@None A)) at 2.
    change (replicate (length vs) None)
      with (values (all_init (R := R) (A := A) (length vs))).
    generalize (all_init (R := R) (A := A) (length vs)) as st.
    induction l as [|j l IH]; intros st; simpl; [done|].
    rewrite IH. unfold all_step.
    destruct (outcomes !! j) as [[w|e]|]; simpl; try done.
    apply length_insert.
Qed.

(** ** The translate handler *)

Section Handler.
Context {R : Type}.
Variable translator : str -> str -> settlement str R.
Variable delay : nat -> nat.

Lemma try_translate_all_fulfilled lang txt st entries results :
  parseSRT txt = Ok entries ->
  translate_entry translator lang <$> entries = Fulfilled <$> results ->
  try_translate translator delay lang txt st
  = Ok (show (toast_success msg_done)
          (setTranslatedSRT (generateSRT results)
             (setOriginalEntries entries st)), true).
Proof.
  intros Hp Ho. unfold try_translate. rewrite Hp, Ho, length_fmap.
  rewrite promise_all_fulfilled by apply fire_order_perm.
  by rewrite mapM_fmap_Some.
Qed.

Lemma try_translate_fulfilled tr lang txt st entries :
  parseSRT txt = Ok entries ->
  (forall t, translator t lang = Fulfilled (tr t)) ->
  try_translate translator delay lang txt st
  = Ok (show (toast_success msg_done)
          (setTranslatedSRT (generateSRT (translated tr <$> entries))
             (setOriginalEntries entries st)), true).
Proof.
  intros Hp Ht. apply try_translate_all_fulfilled; [done|].
  rewrite <- list_fmap_compose. apply list_fmap_ext. intros i e _.
  unfold translate_entry. simpl. by rewrite Ht.
Qed.

(** The promises either are all fulfilled or one of them is rejected. *)
Lemma outcomes_cases {A} (outcomes : list (settlement A R)) :
  (exists results, outcomes = Fulfilled <$> results)
  \/ (exists j r, outcomes !! j = Some (Rejected r)).
Proof.
  induction outcomes as [|[a|r] outcomes [[results ->]|(j & r' & Hj)]].
  - left. by exists [].
  - left. by exists (a :: results).
  - right. by exists (S j), r'.
  - right. by exists 0, r.
  - right. by exists 0, r.
Qed.

(** The [try] block ends, completed or not, for every translator. *)
Lemma try_translate_returns lang txt st :
  exists st' completed,
    try_translate translator delay lang txt st = Ok (st', completed).
Proof.
  destruct (parseSRT_blocks txt) as (blocks & _ & Hp).
  destruct (outcomes_cases
              (translate_entry translator lang <$> omap block_entry blocks))
    as [[results Ho]|(j & r & Hj)].
  - erewrite try_translate_all_fulfilled by done. by eexists _, _.
  - unfold try_translate. rewrite Hp.
    destruct (promise_all_rejected _
                (fire_order delay
                   (length (translate_entry translator lang
                            <$> omap block_entry blocks)))
                j r (fire_order_perm _ _) Hj) as [e' ->].
    by eexists _, _.
Qed.

Lemma try_translate_rejected lang txt st entries e r :
  parseSRT txt = Ok entries ->
  e ∈ entries -> translator (text e) lang = Rejected r ->
  try_translate translator delay lang txt st
  = Ok (setOriginalEntries entries st, false).
Proof.
  intros Hp He Hr. unfold try_translate. rewrite Hp.
  apply list_elem_of_lookup in He as [j Hj].
  destruct (promise_all_rejected
              (translate_entry translator lang <$> entries)
              (fire_order delay
                 (length (translate_entry translator lang <$> entries)))
              j r) as [e' ->]; [apply fire_order_perm| |done].
  rewrite list_lookup_fmap, Hj. simpl. unfold translate_entry.
  by rewrite Hr.
Qed.
End Handler.

(** The handler returns for every translator and every delay. *)
Lemma handleTranslate_with_returns {R : Type}
    (translator : str -> str -> settlement str R) delay st :
  exists st', handleTranslate_with translator delay st = Ok st'.
Proof.
  unfold handleTranslate_with.
  destruct (file st) as [f|]; [|by eexists].
  destruct (selectedLanguage st) as [|c lang]; [by eexists|].
  destruct (try_translate_returns translator delay (c :: lang) (content f)
              (setIsTranslating true st)) as (st' & completed & ->).
  by eexists.
Qed.

(** C7: all-or-nothing translation join: when the translation of one of
    the parsed entries is rejected, [handleTranslate] leaves the translated
    result as it was, shows the generic error and no success notification,
    and ends with the translating flag off. *)
Theorem all_or_nothing_translation {R : Type}
    (translator : str -> str -> settlement str R) (delay : nat -> nat)
    (st : state) (f : File) (entries : list SRTEntry) (e : SRTEntry) (r : R) :
  file st = Some f ->
  selectedLanguage st <> [] ->
  parseSRT (content f) = Ok entries ->
  e ∈ entries ->
  translator (text e) (selectedLanguage st) = Rejected r ->
  exists st',
    handleTranslate_with translator delay st = Ok st'
    /\ translatedSRT st' = translatedSRT st
    /\ toasts st' = toasts st ++ [toast_error msg_failed]
    /\ isTranslating st' = false
    /\ originalEntries st' = entries.
Proof.
  intros Hf Hl Hp He Hr. unfold handleTranslate_with. rewrite Hf.
  destruct (selectedLanguage st) as [|c lang] eqn:Hlang; [done|].
  erewrite try_translate_rejected by done. simpl.
  eexists. split; [done|]. by simpl.
Qed.

Lemma all_or_nothing_translation_witness :
  exists st',
    handleTranslate_with ex_failing_translator ex_delay ex_state = Ok st'
    /\ translatedSRT st' = lit "old"
    /\ toasts st' = [toast_error msg_failed]
    /\ isTranslating st' = false
    /\ originalEntries st'
       = [mkEntry (Int false 7) (lit "00:00:01,000") (lit "00:00:02,000")
                  (lit "Line one" ++ [LF] ++ lit "Line two");
          mkEntry NaN (lit "00:00:05,000") (lit "00:00:02,000") (lit "Hi")].
Proof.
  refine (all_or_nothing_translation ex_failing_translator ex_delay
            ex_state (mkFile (lit "a.srt") ex_mixed) _
            (mkEntry NaN (lit "00:00:05,000") (lit "00:00:02,000") (lit "Hi"))
            tt eq_refl _ _ _ _).
  - by vm_compute.
  - by vm_compute.
  - apply list_elem_of_In. right. left. reflexivity.
  - by vm_compute.
Defined.

(** C8: order preservation under concurrent translation: for every
    assignment of delays to the calls, the aggregate of fulfilled promises
    holds the values in the order of the promises, and [handleTranslate]
    stores the output generated from the translated entries in the order of
    the parsed entries; for three entries the output lists the three
    translated blocks in that order. *)
Theorem order_preserved_under_concurrency :
  (forall (A R : Type) (vs : list A) (delay : nat -> nat),
     settled (promise_all (R := R) (Fulfilled <$> vs)
                (fire_order delay (length vs)))
     = Some (Fulfilled (Some <$> vs)))
  /\ (forall (R : Type) (translator : str -> str -> settlement str R)
        (tr : str -> str) (delay : nat -> nat) st f entries,
        file st = Some f ->
        selectedLanguage st <> [] ->
        parseSRT (content f) = Ok entries ->
        (forall t, translator t (selectedLanguage st) = Fulfilled (tr t)) ->
        exists st',
          handleTranslate_with translator delay st = Ok st'
          /\ translatedSRT st' = generateSRT (translated tr <$> entries)
          /\ toasts st' = toasts st ++ [toast_success msg_done])
  /\ (forall tr a b c,
        generateSRT (translated tr <$> [a; b; c])
        = block_text 0 (translated tr a) ++ [LF]
          ++ block_text 1 (translated tr b) ++ [LF]
          ++ block_text 2 (translated tr c)).
Proof.
  split_and!.
  - intros A R vs delay. apply promise_all_fulfilled, fire_order_perm.
  - intros R translator tr delay st f entries Hf Hl Hp Ht.
    unfold handleTranslate_with. rewrite Hf.
    destruct (selectedLanguage st) as [|c lang] eqn:Hlang; [done|].
    erewrite try_translate_fulfilled by done. simpl.
    eexists. split; [done|]. by simpl.
  - intros tr a b c. by rewrite generateSRT_blocks.
Qed.

Lemma order_preserved_under_concurrency_witness :
  exists st',
    handleTranslate_with (R := Empty_set)
      (fun t lang => Fulfilled (translateText t lang)) ex_delay ex_state
    = Ok st'
    /\ translatedSRT st'
       = generateSRT
           (translated (fun t => translateText t (lit "hebrew"))
            <$> [mkEntry (Int false 7) (lit "00:00:01,000")
                   (lit "00:00:02,000")
                   (lit "Line one" ++ [LF] ++ lit "Line two");
                 mkEntry NaN (lit "00:00:05,000") (lit "00:00:02,000")
                   (lit "Hi")])
    /\ toasts st' = [toast_success msg_done].
Proof.
  refine (proj1 (proj2 order_preserved_under_concurrency) Empty_set
            (fun t lang => Fulfilled (translateText t lang))
            (fun t => translateText t (lit "hebrew")) ex_delay
            ex_state (mkFile (lit "a.srt") ex_mixed) _
            eq_refl _ _ _).
  - by vm_compute.
  - by vm_compute.
  - intros t. reflexivity.
Defined.

(** The component's own handler always completes: its translator never
    rejects. *)
Lemma handleTranslate_completes st f :
  file st = Some f -> selectedLanguage st <> [] ->
  exists entries st',
    parseSRT (content f) = Ok entries
    /\ handleTranslate st = Ok st'
    /\ translatedSRT st'
       = generateSRT
           (translated (fun t => translateText t (selectedLanguage st))
            <$> entries)
    /\ isTranslating st' = false.
Proof.
  intros Hf Hl.
  destruct (parseSRT_blocks (content f)) as (blocks & _ & Hp).
  exists (omap block_entry blocks). unfold handleTranslate, handleTranslate_with.
  rewrite Hf.
  destruct (selectedLanguage st) as [|c lang] eqn:Hlang; [done|].
  erewrite (try_translate_fulfilled _ _
              (fun t => translateText t (c :: lang))) by done.
  simpl. eexists. by split_and!.
Qed.

(** * Further properties *)

(** ** Index lines parse back *)

Lemma radix_value_uint d : forall acc : nat,
  fold_left (fun a c => (a * 10 + digit_value c)%N) (uint_digits d)
            (N.of_nat acc)
  = N.of_nat (Nat.of_uint_acc d acc).
Proof.
  induction d; intros acc; simpl; [done|..];
    rewrite <- IHd; f_equal; rewrite Nat.tail_mul_spec;
    unfold digit_value; simpl; lia.
Qed.

Lemma radix_value_number n :
  radix_value 10 (number_to_string n) = N.of_nat n.
Proof.
  unfold radix_value, number_to_string.
  etransitivity; [apply (radix_value_uint (Nat.to_uint n) 0)|].
  f_equal. apply Unsigned.of_to.
Qed.

Lemma take_while_all p s :
  Forall (fun x => p x = true) s -> take_while p s = s.
Proof. induction 1 as [|x s Hx _ IH]; simpl; [done|]. by rewrite Hx, IH. Qed.

Lemma is_digit_not_space x : is_digit x = true -> is_space x = false.
Proof.
  unfold is_digit, is_space. intros H.
  apply andb_true_iff in H as [H1 H2].
  apply N.leb_le in H1, H2.
  repeat match goal with
    | |- context [(?a <=? ?b)%N] => destruct (N.leb_spec a b); try lia
    | |- context [(?a =? ?b)%N] => destruct (N.eqb_spec a b); try lia
    end; done.
Qed.

(** A numeral without sign or prefix parses to its value. *)
Lemma parseInt_digits s :
  s <> [] -> Forall (fun x => is_digit x = true) s ->
  parseInt s = Int false (radix_value 10 s).
Proof.
  intros Hn Hd. destruct s as [|c s]; [done|].
  inversion Hd as [|? ? Hc Hs]; subst.
  unfold parseInt. rewrite (trimStart_id _ _ (is_digit_not_space _ Hc)).
  assert (Hsign : parse_sign (c :: s) = (false, c :: s)).
  { unfold parse_sign, is_digit in *.
    destruct (N.eqb_spec c 45) as [->|_]; [done|].
    by destruct (N.eqb_spec c 43) as [->|_]. }
  rewrite Hsign.
  assert (Hradix : parse_radix (c :: s) = (10%N, is_digit, c :: s)).
  { unfold parse_radix. destruct s as [|c1 t]; [done|].
    inversion Hs as [|? ? Hc1 _]; subst.
    destruct (N.eqb_spec c1 120) as [->|_]; [done|].
    destruct (N.eqb_spec c1 88) as [->|_]; [done|].
    by rewrite andb_false_r. }
  rewrite Hradix, (take_while_all _ _ Hd). done.
Qed.

Lemma trim_solid s :
  starts_solid s = true -> ends_solid s = true -> trim s = s.
Proof.
  unfold trim, trimEnd, ends_solid. intros Hs He.
  destruct s as [|x s]; [done|]. simpl in Hs.
  apply negb_true_iff in Hs. rewrite (trimStart_id _ _ Hs).
  destruct (rev (x :: s)) as [|y t] eqn:Hr; [done|].
  simpl in He. apply negb_true_iff in He.
  by rewrite (trimStart_id _ _ He), <- Hr, rev_involutive.
Qed.

Lemma digits_solid s :
  s <> [] -> Forall (fun x => is_digit x = true) s ->
  starts_solid s = true /\ ends_solid s = true.
Proof.
  intros Hn Hd. unfold ends_solid. split.
  - destruct s as [|x s]; [done|]. inversion Hd; subst. simpl.
    by rewrite is_digit_not_space.
  - apply Forall_rev in Hd. destruct (rev s) as [|y t] eqn:Hr.
    + apply (f_equal (@rev N)) in Hr. rewrite rev_involutive in Hr. done.
    + inversion Hd; subst. simpl. by rewrite is_digit_not_space.
Qed.

Lemma parseInt_number_to_string n :
  parseInt (trim (number_to_string n)) = Int false (N.of_nat n).
Proof.
  pose proof (number_to_string_digit n) as Hd.
  pose proof (number_to_string_nonempty n) as Hn.
  destruct (digits_solid _ Hn Hd) as [Hs He].
  rewrite (trim_solid _ Hs He), (parseInt_digits _ Hn Hd).
  by rewrite radix_value_number.
Qed.

(** X1: the numeral that [generateSRT] writes for a position parses back,
    with [parseInt] as [parseSRT] calls it, to that position, for every
    position. *)
Theorem index_line_parses_back n :
  parseInt (number_to_string n) = Int false (N.of_nat n)
  /\ parseInt (trim (number_to_string n)) = Int false (N.of_nat n).
Proof.
  split; [|apply parseInt_number_to_string].
  pose proof (number_to_string_digit n) as Hd.
  pose proof (number_to_string_nonempty n) as Hn.
  rewrite (parseInt_digits _ Hn Hd).
  by rewrite radix_value_number.
Qed.

(** ** Blank lines and the blocks of a text *)

Lemma is_space_LF : is_space LF = true.
Proof. reflexivity. Qed.

Lemma existsb_LF l : existsb (N.eqb LF) l = true <-> LF ∈ l.
Proof.
  rewrite existsb_exists, list_elem_of_In. split.
  - intros (x & Hx & Heq). by apply N.eqb_eq in Heq as <-.
  - intros H. exists LF. by rewrite N.eqb_refl.
Qed.

Lemma take_while_app_l p (w t : str) :
  Forall (fun x => p x = true) w -> take_while p (w ++ t) = w ++ take_while p t.
Proof. induction 1 as [|x w Hx _ IH]; simpl; [done|]. by rewrite Hx, IH. Qed.

Lemma take_while_spec p (s : str) :
  exists t, s = take_while p s ++ t
            /\ Forall (fun x => p x = true) (take_while p s).
Proof.
  induction s as [|x s (t & Hs & Hf)]; simpl; [by exists []|].
  destruct (p x) eqn:Hx; [|by exists (x :: s)].
  exists t. split; [by rewrite Hs at 1 | by constructor].
Qed.

(** A newline within the white space at the head of [t]. *)
Lemma LF_in_take_while t :
  LF ∈ take_while is_space t <->
  exists w t', t = w ++ LF :: t' /\ Forall (fun x => is_space x = true) w.
Proof.
  split.
  - intros H. destruct (take_while_spec is_space t) as (t' & Ht & Hf).
    apply list_elem_of_split in H as (w & w' & Hw). rewrite Hw in Ht, Hf.
    exists w, (w' ++ t'). split.
    + rewrite Ht at 1. by rewrite <- app_assoc.
    + by apply Forall_app in Hf as [? _].
  - intros (w & t' & -> & Hw). rewrite take_while_app_l by done.
    apply elem_of_app. right.
    change (take_while is_space (LF :: t')) with (LF :: take_while is_space t').
    by left.
Qed.

Lemma Matches_blank m c c' :
  Matches blank_pattern m c c' <->
  exists w, m = LF :: w ++ [LF] /\ Forall (fun x => is_space x = true) w
            /\ c' = c.
Proof.
  unfold blank_pattern. cbn [seqs]. split.
  - intros H. unfold chr in H. invert_matches.
    eexists. split_and!; [|done|done]. by rewrite app_nil_r.
  - intros (w & -> & Hw & ->).
    apply (M_seq _ _ [LF] (w ++ [LF]) c c c); [apply Matches_chr|].
    apply (M_seq _ _ w [LF] c c c); [by constructor|].
    apply (M_seq _ _ [LF] [] c c c); [apply Matches_chr | constructor].
Qed.

Lemma blank_match_sound s after caps :
  match_here blank_pattern s = Some (after, caps) ->
  caps = [] /\ exists w, s = LF :: w ++ LF :: after
                         /\ Forall (fun x => is_space x = true) w.
Proof.
  intros H. apply match_here_sound in H as (m & -> & Hm).
  apply Matches_blank in Hm as (w & -> & Hw & ->).
  split; [done|]. exists w. split; [|done]. simpl. by rewrite <- app_assoc.
Qed.

Lemma blank_match_length s after caps :
  match_here blank_pattern s = Some (after, caps) ->
  caps = [] /\ length after < length s.
Proof.
  intros H. apply blank_match_sound in H as (-> & w & -> & _).
  split; [done|]. simpl. rewrite length_app. simpl. lia.
Qed.

(** The pattern matches at a place exactly when a newline stands there and
    another one follows within the white space after it. *)
Lemma blank_match_None x t :
  match_here blank_pattern (x :: t) = None <->
  x <> LF \/ LF ∉ take_while is_space t.
Proof.
  split.
  - intros H. destruct (decide (x = LF)) as [->|]; [|by left]. right.
    intros Hin. apply LF_in_take_while in Hin as (w & t' & -> & Hw).
    destruct (match_here_complete blank_pattern (LF :: w ++ [LF]) t' [])
      as [r Hr].
    { apply Matches_blank. by exists w. }
    simpl in Hr. rewrite <- app_assoc in Hr. simpl in Hr. congruence.
  - intros H.
    destruct (match_here blank_pattern (x :: t)) as [[after caps]|] eqn:Hm;
      [|done].
    apply blank_match_sound in Hm as (_ & w & [= -> ->] & Hw).
    destruct H as [H|H]; [done|]. destruct H.
    apply LF_in_take_while. by exists w, after.
Qed.

Lemma blank_match_nil : match_here blank_pattern [] = None.
Proof. reflexivity. Qed.

(** Two newlines before a code unit that is not white space are one
    separator. *)
Lemma blank_match_double d t :
  is_space d = false ->
  match_here blank_pattern (LF :: LF :: d :: t) = Some (d :: t, []).
Proof.
  intros Hd. assert (Hne : (LF =? d)%N = false).
  { apply N.eqb_neq. intros <-. by rewrite is_space_LF in Hd. }
  unfold match_here, blank_pattern, chr. simpl.
  rewrite Hd. simpl. simpl in Hne. by rewrite Hne.
Qed.

(** *** The split, as a relation *)

Lemma split_loop_Split r :
  (forall s after caps,
     match_here r s = Some (after, caps) ->
     caps = [] /\ length after < length s) ->
  forall fuel cur rest pieces,
    split_loop fuel r cur rest = Ok pieces ->
    (forall u x v, rev cur = u ++ x :: v ->
                   match_here r (x :: v ++ rest) = None) ->
    Split r (rev cur ++ rest) pieces.
Proof.
  intros Hr. induction fuel as [|fuel IH]; intros cur rest pieces; [done|].
  simpl. destruct rest as [|x rest].
  { intros [= <-] Hcur. rewrite app_nil_r. apply Split_last.
    intros u y v Huv. specialize (Hcur u y v Huv).
    by rewrite app_nil_r in Hcur. }
  assert (Hstep : match_here r (x :: rest) = None ->
            split_loop fuel r (x :: cur) rest = Ok pieces ->
            (forall u y v, rev cur = u ++ y :: v ->
                           match_here r (y :: v ++ x :: rest) = None) ->
            Split r (rev cur ++ x :: rest) pieces).
  { intros Hm H Hcur. apply IH in H.
    - simpl in H. by rewrite <- app_assoc in H.
    - intros u y v Huv. simpl in Huv.
      destruct v as [|z v _] using rev_ind.
      + apply app_inj_tail in Huv as [_ <-]. done.
      + rewrite app_comm_cons, app_assoc in Huv.
        apply app_inj_tail in Huv as [Huv <-].
        specialize (Hcur u y v Huv). by rewrite <- app_assoc. }
  destruct (match_here r (x :: rest)) as [[after caps]|] eqn:Hm;
    [|by apply Hstep].
  destruct (Hr _ _ _ Hm) as [-> Hlen].
  destruct (Nat.eqb_spec (length after) (length (x :: rest))) as [Heq|_];
    [lia|]. rewrite andb_false_r.
  destruct (split_loop fuel r [] after) as [pieces'| |] eqn:Hp; try done.
  simpl. intros [= <-] Hcur.
  destruct (match_here_sound _ _ _ _ Hm) as (m & Hs & _).
  rewrite Hs in *. apply Split_cons; [done| |done|].
  - intros ->. simpl in Hlen. lia.
  - apply (IH [] after pieces' Hp). intros u y v Huv. by destruct u.
Qed.

Lemma Split_unique r s ps :
  Split r s ps -> forall ps', Split r s ps' -> ps = ps'.
Proof.
  induction 1 as [p Hp|p m rest ps Hp Hm Hmatch _ IH]; intros ps' H'.
  - inversion H' as [|p' m' rest' ps'' Hp' Hm' Hmatch' _ Hs]; [done|].
    subst. destruct m' as [|x m']; [done|]. simpl in Hmatch'.
    rewrite (Hp p' x (m' ++ rest') eq_refl) in Hmatch'. done.
  - inversion H' as [p' Hp' Hs|p' m' rest' ps'' Hp' Hm' Hmatch' Hrest' Hs].
    + subst. destruct m as [|x m]; [done|]. simpl in Hmatch.
      rewrite (Hp' p x (m ++ rest) eq_refl) in Hmatch. done.
    + subst. symmetry in Hs.
      apply app_eq_inv in Hs as [(k & -> & Hk)|(k & -> & Hk)].
      * destruct k as [|x k].
        -- rewrite app_nil_r. simpl in Hk. rewrite Hk in Hmatch'.
           rewrite Hmatch in Hmatch'. injection Hmatch' as <-.
           f_equal. by apply IH.
        -- rewrite Hk in Hmatch'. simpl in Hmatch'.
           rewrite (Hp p' x k eq_refl) in Hmatch'. done.
      * destruct k as [|x k].
        -- rewrite app_nil_r in *. simpl in Hk. rewrite Hk in Hmatch.
           rewrite Hmatch' in Hmatch. injection Hmatch as ->.
           f_equal. by apply IH.
        -- rewrite Hk in Hmatch. simpl in Hmatch.
           rewrite (Hp' p x k eq_refl) in Hmatch. done.
Qed.

(** The blocks of a text are its split at the blank lines. *)
Lemma regex_split_Split s pieces :
  regex_split s blank_pattern = Ok pieces <-> Split blank_pattern s pieces.
Proof.
  assert (Hto : forall l, regex_split s blank_pattern = Ok l ->
                          Split blank_pattern s l).
  { intros l. unfold regex_split. destruct s as [|x s].
    - rewrite blank_match_nil. intros [= <-]. apply Split_last.
      intros u y v Huv. by destruct u.
    - intros H.
      apply (split_loop_Split _ blank_match_length _ [] _ _ H).
      intros u y v Huv. by destruct u. }
  split; [apply Hto|]. intros H.
  destruct (regex_split_returns s blank_pattern) as [l Hl].
  rewrite Hl. f_equal. eapply Split_unique; [by apply Hto | done].
Qed.

(** ** Clean texts *)

Lemma no_blank_line_spec s :
  no_blank_line s = true <->
  forall u v, s = u ++ LF :: v -> LF ∉ take_while is_space v.
Proof.
  induction s as [|x s IH]; simpl.
  - split; [|done]. intros _ u v H. by destruct u.
  - rewrite andb_true_iff, negb_true_iff, IH. split.
    + intros [Hx Hs] u v Huv. destruct u as [|y u].
      * injection Huv as -> ->. rewrite N.eqb_refl in Hx. simpl in Hx.
        intros Hin. apply existsb_LF in Hin. congruence.
      * injection Huv as -> ->. by eapply Hs.
    + intros H. split.
      * destruct (N.eqb_spec x LF) as [->|]; [|done]. simpl.
        apply not_true_iff_false. rewrite existsb_LF. by apply (H []).
      * intros u v ->. by apply (H (x :: u)).
Qed.

Lemma no_blank_line_app_l a b :
  LF ∉ a -> no_blank_line (a ++ b) = no_blank_line b.
Proof.
  induction a as [|x a IH]; intros Ha; simpl; [done|].
  apply not_elem_of_cons in Ha as [Hx Ha]. rewrite IH by done.
  by destruct (N.eqb_spec x LF).
Qed.

Lemma take_while_solid s : starts_solid s = true -> take_while is_space s = [].
Proof.
  destruct s as [|x s]; simpl; [done|]. intros H.
  apply negb_true_iff in H. by rewrite H.
Qed.

Lemma no_blank_line_LF b :
  starts_solid b = true -> no_blank_line (LF :: b) = no_blank_line b.
Proof. intros H. simpl. by rewrite (take_while_solid _ H). Qed.

Lemma starts_solid_app a b : starts_solid a = true -> starts_solid (a ++ b) = true.
Proof. by destruct a. Qed.

Lemma ends_solid_app a b : ends_solid b = true -> ends_solid (a ++ b) = true.
Proof.
  unfold ends_solid. rewrite rev_app_distr. apply starts_solid_app.
Qed.

Lemma take_while_app_stop p (v rest : str) :
  Exists (fun x => p x = false) v ->
  take_while p (v ++ rest) = take_while p v.
Proof.
  induction 1 as [x v Hx|x v _ IH]; simpl.
  - by rewrite Hx.
  - destruct (p x); [by rewrite IH | done].
Qed.

Lemma ends_solid_Exists v :
  ends_solid v = true -> Exists (fun x => is_space x = false) v.
Proof.
  unfold ends_solid. intros H. destruct (rev v) as [|y t] eqn:Hr; [done|].
  simpl in H. apply negb_true_iff in H.
  apply Exists_exists. exists y. split; [|done].
  apply list_elem_of_In, in_rev. rewrite Hr. by left.
Qed.

(** The separator pattern matches at no place of a text that is without a
    blank line and ends with a code unit that is not white space, whatever
    follows the text. *)
Lemma solid_no_match p rest :
  ends_solid p = true -> no_blank_line p = true ->
  forall u x v, p = u ++ x :: v ->
                match_here blank_pattern (x :: v ++ rest) = None.
Proof.
  intros He Hn u x v ->. apply blank_match_None.
  destruct (decide (x = LF)) as [->|]; [right|by left].
  assert (Hv : ends_solid v = true).
  { unfold ends_solid in *. rewrite rev_app_distr in He. simpl in He.
    destruct (rev v) as [|y t]; simpl in He; done. }
  rewrite take_while_app_stop by (by apply ends_solid_Exists).
  by apply (proj1 (no_blank_line_spec _) Hn u v).
Qed.

Lemma trimStart_solid s : starts_solid s = true -> trimStart s = s.
Proof.
  destruct s as [|x s]; [done|]. simpl. intros H.
  apply negb_true_iff in H. by rewrite H.
Qed.

Lemma trimEnd_solid s : ends_solid s = true -> trimEnd s = s.
Proof.
  unfold trimEnd, ends_solid. intros H.
  by rewrite trimStart_solid, rev_involutive.
Qed.

Lemma trimEnd_snoc_space s c :
  is_space c = true -> trimEnd (s ++ [c]) = trimEnd s.
Proof.
  intros H. unfold trimEnd. rewrite rev_app_distr. simpl. by rewrite H.
Qed.

Lemma trim_trailing_LF s :
  starts_solid s = true -> ends_solid s = true -> trim (s ++ [LF]) = s.
Proof.
  intros Hs He. unfold trim.
  rewrite trimStart_solid by (by apply starts_solid_app).
  by rewrite trimEnd_snoc_space, trimEnd_solid.
Qed.

(** ** From the generated text back to the entries *)

Lemma string_match_exact s e :
  is_timecode s = true -> is_timecode e = true ->
  string_match (s ++ lit " --> " ++ e) time_pattern
  = Some [s ++ lit " --> " ++ e; s; e].
Proof.
  intros Hs He.
  destruct (string_match_time_is_Some (s ++ lit " --> " ++ e)) as [res Hm].
  { exists [], s, e, []. by rewrite app_nil_r. }
  rewrite Hm. f_equal.
  apply string_match_time_Some in Hm
    as (pre & t1 & t2 & post & -> & Hl & H1 & H2 & Hleft).
  assert (Hpre : pre = []).
  { specialize (Hleft [] s e []). rewrite app_nil_r in Hleft.
    specialize (Hleft eq_refl Hs He). by destruct pre; [|simpl in Hleft; lia]. }
  subst pre. change ([] ++ ?x) with x in Hl.
  apply app_inj_1 in Hl as [<- Hl]; [|by rewrite !is_timecode_length].
  apply app_inj_1 in Hl as [_ Hl]; [|done].
  rewrite <- (app_nil_r e) in Hl.
  apply app_inj_1 in Hl as [<- _]; [|by rewrite !is_timecode_length].
  done.
Qed.

Lemma time_line_no_LF s e :
  is_timecode s = true -> is_timecode e = true ->
  LF ∉ s ++ lit " --> " ++ e.
Proof.
  intros Hs He. rewrite !not_elem_of_app. split_and!;
    [by apply is_timecode_no_LF | apply arrow_no_LF
    | by apply is_timecode_no_LF].
Qed.

Lemma is_timecode_starts_solid t : is_timecode t = true -> starts_solid t = true.
Proof.
  intros H. destruct t as [|x t]; [done|]. simpl.
  do 11 (destruct t as [|? t]; [simpl in H; discriminate|]).
  destruct t; [|simpl in H; discriminate].
  simpl in H. rewrite !andb_true_iff in H. destruct_and!.
  by rewrite is_digit_not_space.
Qed.

Lemma cue_text_shape i e :
  cue_text i e
  = number_to_string (i + 1)
    ++ LF :: (startTime e ++ lit " --> " ++ endTime e) ++ LF :: text e.
Proof. unfold cue_text. by rewrite <- !app_assoc. Qed.

Lemma cue_text_lines i e :
  well_formed e = true ->
  split_char LF (cue_text i e)
  = number_to_string (i + 1)
    :: (startTime e ++ lit " --> " ++ endTime e)
    :: split_char LF (text e).
Proof.
  unfold well_formed. rewrite !andb_true_iff. intros [[Hs He] _].
  rewrite cue_text_shape.
  rewrite split_char_cut by apply digits_no_LF, number_to_string_digit.
  by rewrite split_char_cut by (by apply time_line_no_LF).
Qed.

(** The cue of a well-formed entry parses to the entry, with the position
    as its index. *)
Lemma block_entry_cue_text i e :
  well_formed e = true ->
  block_entry (cue_text i e)
  = Some (mkEntry (Int false (N.of_nat (i + 1)))
                  (startTime e) (endTime e) (text e)).
Proof.
  intros Hw. unfold block_entry. rewrite (cue_text_lines _ _ Hw).
  unfold well_formed, clean_text in Hw. rewrite !andb_true_iff in Hw.
  destruct Hw as [[Hs He] [[Hts Hte] _]].
  pose proof (split_char_nonempty LF (text e)) as Hn.
  pose proof (join_split_char LF (text e)) as Hj.
  destruct (split_char LF (text e)) as [|l ls]; [done|].
  rewrite (string_match_exact _ _ Hs He).
  change (drop 2 (?a :: ?b :: ?c)) with c.
  by rewrite Hj, (trim_solid _ Hts Hte), parseInt_number_to_string.
Qed.

Lemma cue_text_solid i e :
  well_formed e = true ->
  starts_solid (cue_text i e) = true
  /\ ends_solid (cue_text i e) = true
  /\ no_blank_line (cue_text i e) = true.
Proof.
  intros Hw. unfold well_formed, clean_text in Hw.
  rewrite !andb_true_iff in Hw. destruct Hw as [[Hs He] [[Hts Hte] Htn]].
  pose proof (number_to_string_digit (i + 1)) as Hd.
  pose proof (number_to_string_nonempty (i + 1)) as Hnn.
  split_and!.
  - unfold cue_text. apply starts_solid_app. by apply digits_solid.
  - rewrite cue_text_shape. apply ends_solid_app.
    apply (ends_solid_app (LF :: startTime e ++ lit " --> " ++ endTime e)
             (LF :: text e)).
    by apply (ends_solid_app [LF] (text e)).
  - rewrite cue_text_shape.
    rewrite no_blank_line_app_l by (by apply digits_no_LF).
    rewrite no_blank_line_LF
      by (by do 2 apply starts_solid_app; apply is_timecode_starts_solid).
    rewrite no_blank_line_app_l by (by apply time_line_no_LF).
    by rewrite no_blank_line_LF.
Qed.

Lemma join_blocks_cues E : forall n,
  E <> [] ->
  join [LF] (blocks_from n E) = join [LF; LF] (cues_from n E) ++ [LF].
Proof.
  induction E as [|e E IH]; intros n Hn; [done|].
  destruct E as [|e' E].
  - simpl. unfold block_text, cue_text. by rewrite <- !app_assoc.
  - specialize (IH (S n) ltac:(done)).
    change (join [LF] (blocks_from n (e :: e' :: E)))
      with (block_text n e ++ [LF]
            ++ join [LF] (blocks_from (S n) (e' :: E))).
    change (join [LF; LF] (cues_from n (e :: e' :: E)))
      with (cue_text n e ++ [LF; LF]
            ++ join [LF; LF] (cues_from (S n) (e' :: E))).
    rewrite IH. unfold block_text, cue_text. by rewrite <- !app_assoc.
Qed.

Lemma join_cues_solid E : forall n,
  E <> [] -> Forall (fun e => well_formed e = true) E ->
  starts_solid (join [LF; LF] (cues_from n E)) = true
  /\ ends_solid (join [LF; LF] (cues_from n E)) = true.
Proof.
  induction E as [|e E IH]; intros n Hn Hw; [done|].
  inversion Hw as [|? ? He HE]; subst.
  destruct (cue_text_solid n e He) as (Hs & Hends & _).
  simpl cues_from. rewrite join_cons. split.
  - by apply starts_solid_app.
  - destruct E as [|e' E]; [by rewrite app_nil_r|].
    apply ends_solid_app. apply (ends_solid_app [LF; LF]).
    by apply IH.
Qed.

(** The generated text, without its last newline, splits into the cues. *)
Lemma Split_cues E : forall n,
  E <> [] -> Forall (fun e => well_formed e = true) E ->
  Split blank_pattern (join [LF; LF] (cues_from n E)) (cues_from n E).
Proof.
  induction E as [|e E IH]; intros n Hn Hw; [done|].
  inversion Hw as [|? ? He HE]; subst.
  destruct (cue_text_solid n e He) as (_ & Hends & Hnb).
  simpl cues_from. rewrite join_cons. destruct E as [|e' E].
  - rewrite app_nil_r. apply Split_last. intros u x v Huv.
    rewrite <- (app_nil_r v). by eapply solid_no_match.
  - apply Split_cons; [| done | | by apply IH].
    + intros u x v Huv. by eapply solid_no_match.
    + destruct (join_cues_solid (e' :: E) (S n)) as [Hs _]; [done..|].
      destruct (join [LF; LF] (cues_from (S n) (e' :: E))) as [|d t];
        [done|].
      simpl in Hs. apply negb_true_iff in Hs.
      by apply blank_match_double.
Qed.

Lemma omap_cues E : forall n,
  Forall (fun e => well_formed e = true) E ->
  omap block_entry (cues_from n E)
  = imap (fun i e => mkEntry (Int false (N.of_nat (n + i + 1)))
                             (startTime e) (endTime e) (text e)) E.
Proof.
  induction E as [|e E IH]; intros n Hw; [done|].
  inversion Hw as [|? ? He HE]; subst.
  simpl. rewrite (block_entry_cue_text _ _ He), IH by done.
  rewrite Nat.add_0_r. f_equal. apply imap_ext. intros i x _. simpl.
  do 3 f_equal. lia.
Qed.

(** Parsing the text generated from well-formed entries gives the entries
    back, numbered from 1. *)
Lemma parseSRT_generateSRT E :
  Forall (fun e => well_formed e = true) E ->
  parseSRT (generateSRT E) = Ok (renumber E).
Proof.
  intros Hw. destruct E as [|e E]; [done|].
  rewrite generateSRT_blocks, join_blocks_cues by done.
  unfold parseSRT.
  destruct (join_cues_solid (e :: E) 0) as [Hs He]; [done..|].
  rewrite trim_trailing_LF by done.
  rewrite (proj2 (regex_split_Split _ _) (Split_cues (e :: E) 0 ltac:(done) Hw)).
  cbn [mbind result_bind].
  rewrite forEach_parse_block, omap_cues by done. done.
Qed.

Lemma imap_same_cue E : forall E' (g g' : nat -> number),
  imap (fun i e => mkEntry (g i) (startTime e) (endTime e) (text e)) E
  = imap (fun i e => mkEntry (g' i) (startTime e) (endTime e) (text e)) E' ->
  Forall2 same_cue E E'.
Proof.
  induction E as [|e E IH]; intros [|e' E'] g g' H; try done.
  simpl in H. injection H as _ Hs He Ht H.
  constructor; [done|]. by apply (IH E' (g ∘ S) (g' ∘ S)).
Qed.

(** X2: generate then parse: for every list of well-formed entries (two
    timecodes and a non-empty trimmed text without blank line each),
    parsing the generated text gives the same times and texts back, in
    order, the indices being the positions from 1. *)
Theorem generate_then_parse E :
  Forall (fun e => well_formed e = true) E ->
  parseSRT (generateSRT E) = Ok (renumber E)
  /\ Forall2 same_cue E (renumber E)
  /\ length (renumber E) = length E.
Proof.
  intros Hw. split; [by apply parseSRT_generateSRT|]. split.
  - unfold renumber.
    apply Forall2_same_length_lookup_2; [by rewrite length_imap|].
    intros i x y Hx Hy. rewrite list_lookup_imap, Hx in Hy.
    by injection Hy as <-.
  - apply length_imap.
Qed.

Lemma generate_then_parse_witness :
  parseSRT (generateSRT ex_entries) = Ok (renumber ex_entries)
  /\ Forall2 same_cue ex_entries (renumber ex_entries)
  /\ length (renumber ex_entries) = length ex_entries.
Proof.
  apply generate_then_parse. by repeat constructor.
Defined.

(** X3: on well-formed entries the generated text loses nothing but the
    indices: two lists give the same text exactly when they have the same
    times and texts, entry by entry. *)
Theorem generateSRT_injective E E' :
  Forall (fun e => well_formed e = true) E ->
  Forall (fun e => well_formed e = true) E' ->
  generateSRT E = generateSRT E' <-> Forall2 same_cue E E'.
Proof.
  intros Hw Hw'. split; [|apply generateSRT_same_cue].
  intros H. apply (f_equal parseSRT) in H.
  rewrite !parseSRT_generateSRT in H by done.
  injection H as H. by apply imap_same_cue in H.
Qed.

Lemma generateSRT_injective_witness :
  generateSRT ex_entries = generateSRT (renumber ex_entries)
  <-> Forall2 same_cue ex_entries (renumber ex_entries).
Proof.
  apply generateSRT_injective; by repeat constructor.
Defined.

(** ** What the parser returns is well formed *)

Lemma ends_solid_app_eq a b : b <> [] -> ends_solid (a ++ b) = ends_solid b.
Proof.
  unfold ends_solid. rewrite rev_app_distr. intros Hb.
  destruct (rev b) as [|y t] eqn:Hr; [|done].
  apply (f_equal (@rev N)) in Hr. by rewrite rev_involutive in Hr.
Qed.

Lemma spaces_not_solid w :
  Forall (fun x => is_space x = true) w -> ends_solid w = false.
Proof.
  intros H. unfold ends_solid. apply Forall_rev in H.
  destruct (rev w) as [|y t]; [done|]. inversion H as [|? ? Hy _]; subst.
  simpl. by rewrite Hy.
Qed.

Lemma take_while_app_elem p (v t : str) x :
  x ∈ take_while p v -> x ∈ take_while p (v ++ t).
Proof.
  induction v as [|y v IH]; simpl; [by intros ?%elem_of_nil|].
  destruct (p y); [|by intros ?%elem_of_nil].
  intros [->|H]%elem_of_cons; [by left | right; by apply IH].
Qed.

Lemma trim_solid_or_nil s :
  trim s = [] \/ (starts_solid (trim s) = true /\ ends_solid (trim s) = true).
Proof.
  unfold trim. pose proof (trimStart_head s) as Hh.
  destruct (trimStart s) as [|c t]; [by left|]. right.
  destruct (trimEnd_cons c t Hh) as (u & w & Hu & _). split.
  - rewrite Hu. simpl. by rewrite Hh.
  - unfold trimEnd, ends_solid. rewrite rev_involutive.
    pose proof (trimStart_head (rev (c :: t))) as Hr.
    destruct (trimStart (rev (c :: t))) as [|y r] eqn:Ht.
    + unfold trimEnd in Hu. by rewrite Ht in Hu.
    + simpl. by rewrite Hr.
Qed.

Lemma trim_nil_spaces t : trim t = [] -> Forall (fun x => is_space x = true) t.
Proof.
  unfold trim. intros H.
  destruct (trimStart_spec t) as (w & Ht & Hw).
  destruct (trimEnd_spec (trimStart t)) as (w' & Ht' & Hw').
  rewrite H in Ht'. simpl in Ht'. rewrite Ht, Ht'. by apply Forall_app.
Qed.

(** A block holds no blank line, and does not end with a newline followed
    by white space only. *)
Lemma Split_blocks s ps :
  Split blank_pattern s ps ->
  s = [] \/ ends_solid s = true ->
  Forall (fun b =>
            (forall u v, b = u ++ LF :: v -> LF ∉ take_while is_space v)
            /\ (forall u w, b = u ++ LF :: w ->
                            ~ Forall (fun x => is_space x = true) w)) ps.
Proof.
  induction 1 as [p Hp|p m rest ps Hp Hm Hmatch _ IH]; intros Hs.
  - constructor; [|done]. split.
    + intros u v ->. specialize (Hp u LF v eq_refl).
      apply blank_match_None in Hp as [Hp|Hp]; done.
    + intros u w -> Hw. destruct Hs as [Hs|Hs]; [by destruct u|].
      rewrite ends_solid_app_eq in Hs by done.
      rewrite spaces_not_solid in Hs; [done|].
      constructor; [apply is_space_LF | done].
  - assert (HmLF : exists m', m = LF :: m').
    { destruct m as [|x m']; [done|].
      apply blank_match_sound in Hmatch as (_ & w & [= -> _] & _).
      by exists m'. }
    destruct HmLF as [m' ->].
    constructor.
    + split.
      * intros u v ->. specialize (Hp u LF v eq_refl).
        apply blank_match_None in Hp as [Hp|Hp]; [done|].
        intros Hin. apply Hp. by apply take_while_app_elem.
      * intros u w -> Hw. specialize (Hp u LF w eq_refl).
        apply blank_match_None in Hp as [Hp|Hp]; [done|].
        apply Hp. apply LF_in_take_while. by exists w, (m' ++ rest).
    + apply IH. destruct rest as [|y rest]; [by left|]. right.
      destruct Hs as [Hs|Hs]; [by destruct p|].
      rewrite ends_solid_app_eq in Hs by done.
      by rewrite (ends_solid_app_eq (LF :: m')) in Hs.
Qed.

Lemma block_entry_well_formed b e :
  (forall u v, b = u ++ LF :: v -> LF ∉ take_while is_space v) ->
  (forall u w, b = u ++ LF :: w -> ~ Forall (fun x => is_space x = true) w) ->
  block_entry b = Some e -> well_formed e = true.
Proof.
  intros HA HB He.
  apply block_entry_Some in He
    as (l0 & l1 & l2 & r & pre & post & Hl & _ & _ & Ht1 & Ht2 & Ht & _).
  apply block_lines in Hl. set (tail := join [LF] (l2 :: r)) in *.
  unfold well_formed, clean_text. rewrite Ht1, Ht2, Ht. simpl.
  destruct (trim_solid_or_nil tail) as [Hnil|[Hs Hends]].
  - destruct (HB (l0 ++ [LF] ++ l1) tail).
    + rewrite Hl. by rewrite <- !app_assoc.
    + by apply trim_nil_spaces.
  - rewrite Hs, Hends. simpl. apply no_blank_line_spec.
    intros u v Huv Hin. destruct (trim_infix tail) as (a & c & Htail).
    rewrite Huv in Htail.
    apply (HA (l0 ++ [LF] ++ l1 ++ [LF] ++ a ++ u) (v ++ c)).
    + rewrite Hl, Htail. by rewrite <- !app_assoc.
    + by apply take_while_app_elem.
Qed.

(** Every entry that the parser returns is well formed. *)
Lemma parseSRT_well_formed content entries :
  parseSRT content = Ok entries ->
  Forall (fun e => well_formed e = true) entries.
Proof.
  intros Hp. destruct (parseSRT_blocks content) as (blocks & Hs & Hp').
  rewrite Hp in Hp'. injection Hp' as ->.
  apply regex_split_Split, Split_blocks in Hs.
  - apply Forall_forall. intros e He.
    apply list_elem_of_omap in He as (b & Hb & He).
    rewrite Forall_forall in Hs. destruct (Hs b Hb) as [HA HB].
    by eapply block_entry_well_formed.
  - destruct (trim_solid_or_nil content) as [?|[_ ?]]; [by left | by right].
Qed.

(** X4: whatever the input, every entry that [parseSRT] returns has two
    timecodes of the shape [HH:MM:SS,mmm] and a text that is not empty,
    neither begins nor ends with white space and contains no blank
    line. *)
Theorem parsed_entries_well_formed content :
  exists entries,
    parseSRT content = Ok entries
    /\ Forall (fun e => is_timecode (startTime e) = true
                        /\ is_timecode (endTime e) = true
                        /\ text e <> []
                        /\ starts_solid (text e) = true
                        /\ ends_solid (text e) = true
                        /\ no_blank_line (text e) = true) entries.
Proof.
  destruct (parseSRT_blocks content) as (blocks & _ & Hp).
  eexists. split; [done|].
  eapply Forall_impl; [by apply (parseSRT_well_formed content)|].
  intros e. unfold well_formed, clean_text. rewrite !andb_true_iff.
  intros [[? ?] [[Hs ?] ?]]. split_and!; try done. by destruct (text e).
Qed.

(** X5: parsing what was generated from a parse changes nothing but the
    indices: for every input, the text generated from its entries parses to
    these entries numbered from 1, and generating again gives the same
    text. *)
Theorem parse_generate_idempotent content :
  exists entries,
    parseSRT content = Ok entries
    /\ parseSRT (generateSRT entries) = Ok (renumber entries)
    /\ generateSRT (renumber entries) = generateSRT entries.
Proof.
  destruct (parseSRT_blocks content) as (blocks & _ & Hp).
  eexists. split; [done|]. split.
  - by apply parseSRT_generateSRT, (parseSRT_well_formed content).
  - apply generateSRT_same_cue. unfold renumber.
    apply Forall2_same_length_lookup_2; [by rewrite length_imap|].
    intros i x y Hx Hy. rewrite list_lookup_imap in Hx.
    rewrite Hy in Hx. by injection Hx as <-.
Qed.

(** ** The translate handler: frame and edge cases *)

Lemma try_translate_frame {R : Type}
    (translator : str -> str -> settlement str R) delay lang txt st st' c :
  try_translate translator delay lang txt st = Ok (st', c) ->
  file st' = file st /\ selectedLanguage st' = selectedLanguage st
  /\ isTranslating st' = isTranslating st
  /\ if c then toasts st' = toasts st ++ [toast_success msg_done]
     else toasts st' = toasts st /\ translatedSRT st' = translatedSRT st.
Proof.
  unfold try_translate.
  destruct (parseSRT txt) as [entries| |]; [| by intros [= <- <-] | done].
  destruct (settled _) as [[slots|e]|]; [| by intros [= <- <-] | done].
  destruct (mapM id slots); by intros [= <- <-].
Qed.

(** X6: for every translator and every delays, [handleTranslate] returns,
    keeps the file and the language, and shows exactly one notification:
    the missing-input error when no file or no language is selected (and
    then nothing else changes), else the success notification or the
    generic error; after the generic error the translated result is the one
    from before, and in both cases the translating flag is off. *)
Theorem handler_frame {R : Type}
    (translator : str -> str -> settlement str R) (delay : nat -> nat) st :
  exists st' t,
    handleTranslate_with translator delay st = Ok st'
    /\ file st' = file st
    /\ selectedLanguage st' = selectedLanguage st
    /\ toasts st' = toasts st ++ [t]
    /\ (file st = None \/ selectedLanguage st = [] ->
        st' = show (toast_error msg_missing_input) st)
    /\ (file st <> None -> selectedLanguage st <> [] ->
        isTranslating st' = false
        /\ (t = toast_success msg_done
            \/ (t = toast_error msg_failed
                /\ translatedSRT st' = translatedSRT st))).
Proof.
  unfold handleTranslate_with.
  destruct (file st) as [f|] eqn:Hf.
  2:{ exists (show (toast_error msg_missing_input) st),
             (toast_error msg_missing_input).
      by split_and!. }
  destruct (selectedLanguage st) as [|c lang] eqn:Hl.
  { exists (show (toast_error msg_missing_input) st),
           (toast_error msg_missing_input).
    by split_and!. }
  destruct (try_translate_returns translator delay (c :: lang) (content f)
              (setIsTranslating true st)) as (st1 & completed & Ht).
  rewrite Ht. simpl.
  apply try_translate_frame in Ht as (H1 & H2 & H3 & H4).
  simpl in H1, H2. destruct completed.
  - exists (setIsTranslating false st1), (toast_success msg_done).
    split_and!;
      try first [ done | simpl in *; congruence | by intros [?|?]
                | by (intros _ _; split; [done | left])
                | by (intros _ _; split; [done | right]) ].
  - destruct H4 as [H4 H5].
    exists (setIsTranslating false (show (toast_error msg_failed) st1)),
           (toast_error msg_failed).
    split_and!;
      try first [ done | simpl in *; congruence | by intros [?|?]
                | by (intros _ _; split; [done | left])
                | by (intros _ _; split; [done | right]) ].
Qed.

(** White space only: no entry. *)
Lemma trimStart_spaces s :
  Forall (fun x => is_space x = true) s -> trimStart s = [].
Proof. induction 1 as [|x s Hx _ IH]; simpl; [done|]. by rewrite Hx. Qed.

(** X7: an input of white space only, the empty input included, gives no
    entry and no error. *)
Theorem blank_input_no_entries content :
  Forall (fun x => is_space x = true) content -> parseSRT content = Ok [].
Proof.
  intros H. unfold parseSRT, trim. by rewrite (trimStart_spaces _ H).
Qed.

Lemma blank_input_no_entries_witness :
  parseSRT ([32; LF; 9; CR; LF; LF; 160]%N) = Ok [].
Proof.
  apply blank_input_no_entries. by repeat constructor.
Defined.

(** ** The result of the component's own handler *)

Lemma handleTranslate_result st f c lang entries :
  file st = Some f -> selectedLanguage st = c :: lang ->
  parseSRT (content f) = Ok entries ->
  handleTranslate st
  = Ok (mkState (c :: lang) (Some f)
          (generateSRT
             (translated (fun t => translateText t (c :: lang)) <$> entries))
          false entries (toasts st ++ [toast_success msg_done])).
Proof.
  intros Hf Hl Hp. unfold handleTranslate, handleTranslate_with.
  rewrite Hf, Hl.
  erewrite (try_translate_fulfilled _ _
              (fun t => translateText t (c :: lang))) by done.
  simpl. unfold setIsTranslating, show, setTranslatedSRT, setOriginalEntries.
  simpl. by rewrite Hf, Hl.
Qed.

Lemma translateText_prefix t lang :
  exists prefix,
    translateText t lang = prefix ++ t
    /\ starts_solid prefix = true /\ LF ∉ prefix.
Proof.
  unfold translateText. destruct (bool_decide _).
  - exists hebrew_prefix. split_and!; [done|done|].
    unfold hebrew_prefix. rewrite !not_elem_of_cons.
    split_and!; try done. apply not_elem_of_nil.
  - exists (lit "Translation: "). split_and!; [done|done|].
    assert (lit "Translation: "
            = [84; 114; 97; 110; 115; 108; 97; 116; 105; 111; 110; 58; 32]%N)
      as -> by (by vm_compute).
    rewrite !not_elem_of_cons. split_and!; try done. apply not_elem_of_nil.
Qed.

(** The placeholder translation keeps an entry well formed. *)
Lemma translated_well_formed lang e :
  well_formed e = true ->
  well_formed (translated (fun t => translateText t lang) e) = true.
Proof.
  unfold well_formed, clean_text. rewrite !andb_true_iff.
  intros [[Hs He] [[Hts Hte] Htn]]. simpl.
  destruct (translateText_prefix (text e) lang) as (prefix & -> & Hp & Hn).
  split_and!; try done.
  - by apply starts_solid_app.
  - by apply ends_solid_app.
  - by rewrite no_blank_line_app_l.
Qed.

(** X8: the translated text is a subtitle text again: after a run of the
    component's handler on a file and a language, parsing the stored result
    gives as many entries as the file had, with the same times and the
    translated texts, numbered from 1. *)
Theorem translated_result_parses_back st f :
  file st = Some f -> selectedLanguage st <> [] ->
  exists entries st',
    parseSRT (content f) = Ok entries
    /\ handleTranslate st = Ok st'
    /\ parseSRT (translatedSRT st')
       = Ok (renumber
               (translated (fun t => translateText t (selectedLanguage st))
                <$> entries))
    /\ length (renumber
                 (translated (fun t => translateText t (selectedLanguage st))
                  <$> entries))
       = length entries.
Proof.
  intros Hf Hl.
  destruct (parseSRT_blocks (content f)) as (blocks & _ & Hp).
  destruct (selectedLanguage st) as [|c lang] eqn:Hlang; [done|].
  eexists _, _. split; [done|]. split.
  { by apply handleTranslate_result. }
  simpl. split.
  - apply parseSRT_generateSRT. apply Forall_fmap.
    eapply Forall_impl; [by apply (parseSRT_well_formed (content f))|].
    intros e He. by apply translated_well_formed.
  - unfold renumber. by rewrite length_imap, length_fmap.
Qed.

Lemma translated_result_parses_back_witness :
  exists entries st',
    parseSRT ex_mixed = Ok entries
    /\ handleTranslate ex_state = Ok st'
    /\ parseSRT (translatedSRT st')
       = Ok (renumber
               (translated (fun t => translateText t (lit "hebrew"))
                <$> entries))
    /\ length (renumber
                 (translated (fun t => translateText t (lit "hebrew"))
                  <$> entries))
       = length entries.
Proof.
  refine (translated_result_parses_back ex_state
            (mkFile (lit "a.srt") ex_mixed) eq_refl _).
  by vm_compute.
Defined.

(** ** Downloads *)

(** X9: [handleDownload] does nothing while there is no translated result;
    otherwise it starts the download of exactly the stored result, as
    [text/plain;charset=utf-8], named ["translated_"] followed by the name
    of the file, or by ["subtitles.srt"] when there is no file or its name
    is empty; it changes nothing in the state but the notifications, so
    that a second download gives the same file. *)
Theorem download_delivers_result st :
  (translatedSRT st = [] -> handleDownload st = (st, None))
  /\ (translatedSRT st <> [] ->
      exists d,
        handleDownload st = (show (toast_success msg_downloaded) st, Some d)
        /\ blob_text d = translatedSRT st
        /\ blob_type d = lit "text/plain;charset=utf-8"
        /\ download_name d
           = match file st with
             | Some f => saved_name f
             | None => lit "translated_" ++ lit "subtitles.srt"
             end
        /\ snd (handleDownload (show (toast_success msg_downloaded) st))
           = Some d).
Proof.
  unfold handleDownload. split.
  - by intros ->.
  - intros Hn. destruct (translatedSRT st) as [|x t] eqn:Ht; [done|].
    eexists. split_and!; try done.
    + simpl. unfold saved_name. by destruct (file st).
    + simpl. by rewrite Ht.
Qed.

Lemma download_delivers_result_witness :
  exists d,
    handleDownload (setTranslatedSRT (lit "1") initial_state)
    = (show (toast_success msg_downloaded)
         (setTranslatedSRT (lit "1") initial_state), Some d)
    /\ blob_text d = lit "1"
    /\ blob_type d = lit "text/plain;charset=utf-8"
    /\ download_name d = lit "translated_" ++ lit "subtitles.srt"
    /\ snd (handleDownload
              (show (toast_success msg_downloaded)
                 (setTranslatedSRT (lit "1") initial_state)))
       = Some d.
Proof.
  refine (proj2 (download_delivers_result
                   (setTranslatedSRT (lit "1") initial_state)) _).
  by vm_compute.
Defined.

(** X10: a file without any accepted block is translated "successfully" to
    nothing: the handler shows the success notification, stores the empty
    result and no entry, and [handleDownload] then does nothing. *)
Theorem empty_translation_not_downloadable st f :
  file st = Some f -> selectedLanguage st <> [] ->
  parseSRT (content f) = Ok [] ->
  exists st',
    handleTranslate st = Ok st'
    /\ toasts st' = toasts st ++ [toast_success msg_done]
    /\ translatedSRT st' = [] /\ originalEntries st' = []
    /\ handleDownload st' = (st', None).
Proof.
  intros Hf Hl Hp.
  destruct (selectedLanguage st) as [|c lang] eqn:Hlang; [done|].
  eexists. split; [by apply handleTranslate_result|]. done.
Qed.

Lemma empty_translation_not_downloadable_witness :
  exists st',
    handleTranslate
      (mkState (lit "english") (Some (mkFile (lit "a.srt") ex_malformed))
               (lit "old") false [] [])
    = Ok st'
    /\ toasts st' = [] ++ [toast_success msg_done]
    /\ translatedSRT st' = [] /\ originalEntries st' = []
    /\ handleDownload st' = (st', None).
Proof.
  refine (empty_translation_not_downloadable
            (mkState (lit "english") (Some (mkFile (lit "a.srt") ex_malformed))
                     (lit "old") false [] [])
            (mkFile (lit "a.srt") ex_malformed) eq_refl _ _);
    by vm_compute.
Defined.

(** ** Sessions *)

Section SessionProofs.
Variable toLowerCase : str -> str.

Lemma session_inv_initial : session_inv toLowerCase initial_state.
Proof. unfold session_inv. split_and!; try done; by left. Qed.

Lemma translate_enabled st :
  translate_disabled st = false ->
  exists f c lang,
    file st = Some f /\ selectedLanguage st = c :: lang
    /\ isTranslating st = false.
Proof.
  unfold translate_disabled.
  destruct (file st) as [f|]; [|done].
  destruct (selectedLanguage st) as [|c lang]; [done|].
  intros H. by exists f, c, lang.
Qed.

Lemma step_invariant st a :
  session_inv toLowerCase st ->
  exists st' d,
    step toLowerCase st a = Ok (st', d)
    /\ session_inv toLowerCase st'
    /\ (forall d', d = Some d' -> download_ok toLowerCase d').
Proof.
  intros Hinv. pose proof Hinv as (Hi & Hl & Hf & Ht & Hto).
  destruct a as [[f|]|l| |]; simpl.
  - (* a file is picked *)
    unfold handleFileSelect.
    destruct (endsWith (toLowerCase (name f)) (lit ".srt")) eqn:He; simpl.
    + eexists _, None. split; [done|]. split; [|done].
      unfold session_inv. simpl. split_and!; try done.
      * by intros ? [= <-].
      * by left.
      * apply Forall_app. split; [done|].
        constructor; [|done]. right. by left.
    + eexists _, None. split; [done|]. split; [|done].
      unfold session_inv. simpl. split_and!; try done.
      apply Forall_app. split; [done|]. constructor; [|done]. by left.
  - (* the file dialog is closed without a file *)
    by exists st, None.
  - (* a language is picked *)
    eexists _, None. split; [done|]. split; [|done].
    unfold session_inv. simpl. split_and!; try done. right. by exists l.
  - (* the translate button *)
    destruct (translate_disabled st) eqn:Hd.
    { by exists st, None. }
    apply translate_enabled in Hd as (f & c & lang & Hfile & Hlang & _).
    destruct (parseSRT_blocks (content f)) as (blocks & _ & Hp).
    rewrite (handleTranslate_result _ _ _ _ _ Hfile Hlang Hp). simpl.
    eexists _, None. split; [done|]. split; [|done].
    assert (Hlv : exists l, c :: lang = language_value l).
    { rewrite Hlang in Hl. by destruct Hl as [?|?]. }
    unfold session_inv. simpl. split_and!; try done.
    + by right.
    + intros f' [= <-]. by apply Hf.
    + right. exists f, (omap block_entry blocks). split_and!; try done.
      destruct Hlv as [l Hlv]. exists l, (omap block_entry blocks).
      by rewrite <- Hlv.
    + apply Forall_app. split; [done|]. constructor; [|done].
      right. right. by left.
  - (* the download button *)
    destruct (translatedSRT st) as [|x t] eqn:Hx.
    { by exists st, None. }
    unfold handleDownload. rewrite Hx.
    destruct Ht as [Ht|(f & entries & Hfile & Htr & Hp & Ho)]; [done|].
    eexists _, (Some _). split; [done|]. split.
    + unfold session_inv. simpl. split_and!; try done.
      * right. exists f, entries. by rewrite Hx.
      * apply Forall_app. split; [done|]. constructor; [|done].
        right. right. by right.
    + intros d' [= <-]. exists f. simpl. rewrite Hfile.
      split_and!; try done; by apply Hf.
Qed.

Lemma run_invariant actions : forall st ds,
  session_inv toLowerCase st -> Forall (download_ok toLowerCase) ds ->
  exists st' ds',
    run toLowerCase st ds actions = Ok (st', ds')
    /\ session_inv toLowerCase st'
    /\ Forall (download_ok toLowerCase) ds'.
Proof.
  induction actions as [|a actions IH]; intros st ds Hinv Hds; simpl.
  - by exists st, ds.
  - destruct (step_invariant st a Hinv) as (st1 & d & -> & Hinv1 & Hd).
    simpl. apply IH; [done|]. apply Forall_app. split; [done|].
    destruct d as [d|]; simpl; [|done]. constructor; [by apply Hd | done].
Qed.

(** *** The state against the actions so far *)














End SessionProofs.


(** X12: in such a session neither the missing-input error nor the generic
    translation error is ever shown: the translate button is disabled
    exactly when the guard of the handler would fail, and the placeholder
    translator does not fail.  The only notifications are the wrong-file
    error and the three success messages. *)
Theorem session_shows_no_handler_error
    (toLowerCase : str -> str) (actions : list action) :
  exists st downloads,
    run toLowerCase initial_state [] actions = Ok (st, downloads)
    /\ Forall allowed_toast (toasts st)
    /\ (toast_error msg_missing_input ∉ toasts st)
    /\ (toast_error msg_failed ∉ toasts st).
Proof.
  destruct (run_invariant toLowerCase actions initial_state [])
    as (st & ds & Hr & (_ & _ & _ & _ & Hto) & _);
    [apply session_inv_initial | done |].
  exists st, ds. split_and!; [done|done|..];
    intros Hin; rewrite Forall_forall in Hto;
    destruct (Hto _ Hin) as [H|[H|[H|H]]]; by vm_compute in H.
Qed.

(** ** The extension check *)

Lemma ascii_lower_dot c : (ascii_lower c =? 46)%N = (c =? 46)%N.
Proof.
  unfold ascii_lower.
  destruct (N.leb_spec 65 c), (N.leb_spec c 90); simpl;
    repeat match goal with
      | |- context [(?a =? ?b)%N] => destruct (N.eqb_spec a b)
      end; try done; lia.
Qed.

Lemma ascii_lower_letter c k :
  (97 <= k <= 122)%N ->
  (ascii_lower c =? k)%N = ((c =? k) || (c =? k - 32))%N.
Proof.
  intros Hk. unfold ascii_lower.
  destruct (N.leb_spec 65 c), (N.leb_spec c 90); simpl;
    repeat match goal with
      | |- context [(?a =? ?b)%N] => destruct (N.eqb_spec a b)
      end; try done; lia.
Qed.

Lemma bool_decide_four (a b c d w x y z : N) :
  bool_decide ([a; b; c; d] = [w; x; y; z])
  = ((a =? w) && (b =? x) && (c =? y) && (d =? z))%N.
Proof.
  destruct (N.eqb_spec a w), (N.eqb_spec b x), (N.eqb_spec c y),
    (N.eqb_spec d z); subst; simpl;
    first [ by apply bool_decide_eq_true_2
          | apply bool_decide_eq_false_2; congruence ].
Qed.

Lemma endsWith_srt_rev r :
  endsWith (ascii_lower <$> rev r) (lit ".srt") = has_srt_extension (rev r).
Proof.
  unfold endsWith, has_srt_extension. rewrite rev_involutive.
  assert (lit ".srt" = [46; 115; 114; 116]%N) as -> by (by vm_compute).
  rewrite length_fmap, length_rev.
  destruct r as [|t [|r [|s [|d rest]]]]; try done.
  assert (Hn : rev (t :: r :: s :: d :: rest) = rev rest ++ [d; s; r; t]).
  { simpl. by rewrite <- !app_assoc. }
  rewrite Hn, fmap_app.
  replace (length [46; 115; 114; 116]%N <=? length (t :: r :: s :: d :: rest))
    with true by (symmetry; apply Nat.leb_le; simpl; lia).
  replace (length (t :: r :: s :: d :: rest) - length [46; 115; 114; 116]%N)
    with (length (ascii_lower <$> rev rest))
    by (rewrite length_fmap, length_rev; simpl; lia).
  rewrite drop_app_length.
  change (ascii_lower <$> [d; s; r; t])
    with [ascii_lower d; ascii_lower s; ascii_lower r; ascii_lower t].
  rewrite bool_decide_four.
  rewrite ascii_lower_dot, !ascii_lower_letter by lia. done.
Qed.

Lemma endsWith_srt_ascii n :
  endsWith (ascii_lower <$> n) (lit ".srt") = has_srt_extension n.
Proof. rewrite <- (rev_involutive n). apply endsWith_srt_rev. Qed.

(** X13: with a [toLowerCase] that lower-cases ASCII names letter by
    letter, [handleFileSelect] accepts a file with an ASCII name exactly
    when the last four code units of the name are [.srt] in any mix of
    cases: then the file is stored and the translated result cleared, so
    that [handleDownload] does nothing until the next translation; any
    other name only shows the wrong-file error, and the file and the result
    from before stay. *)
Theorem srt_extension_check (toLowerCase : str -> str) :
  (forall s, forallb is_ascii s = true -> toLowerCase s = ascii_lower <$> s) ->
  forall f st,
    forallb is_ascii (name f) = true ->
    if has_srt_extension (name f)
    then handleFileSelect toLowerCase (Some f) st
         = show (toast_success msg_loaded)
             (setTranslatedSRT [] (setFile (Some f) st))
         /\ handleDownload (handleFileSelect toLowerCase (Some f) st)
            = (handleFileSelect toLowerCase (Some f) st, None)
    else handleFileSelect toLowerCase (Some f) st
         = show (toast_error msg_bad_file) st.
Proof.
  intros Hlower f st Hascii. unfold handleFileSelect.
  rewrite (Hlower _ Hascii), endsWith_srt_ascii.
  by destruct (has_srt_extension (name f)).
Qed.

Lemma srt_extension_check_witness :
  handleFileSelect (fmap ascii_lower) (Some ex_file) ex_state
  = show (toast_success msg_loaded)
      (setTranslatedSRT [] (setFile (Some ex_file) ex_state))
  /\ handleDownload (handleFileSelect (fmap ascii_lower) (Some ex_file) ex_state)
     = (handleFileSelect (fmap ascii_lower) (Some ex_file) ex_state, None).
Proof.
  exact (srt_extension_check (fmap ascii_lower) (fun s _ => eq_refl)
           ex_file ex_state eq_refl).
Defined.

(** ** White space around the content *)

Lemma trimStart_pad w s :
  Forall (fun x => is_space x = true) w -> trimStart (w ++ s) = trimStart s.
Proof. induction 1 as [|x w Hx _ IH]; simpl; [done|]. by rewrite Hx. Qed.

Lemma trimEnd_pad s w :
  Forall (fun x => is_space x = true) w -> trimEnd (s ++ w) = trimEnd s.
Proof.
  intros Hw. unfold trimEnd. rewrite rev_app_distr.
  by rewrite trimStart_pad by (by apply Forall_rev).
Qed.

Lemma trimStart_app_r s w :
  trimStart (s ++ w)
  = if trimStart s is [] then trimStart w else trimStart s ++ w.
Proof.
  induction s as [|x s IH]; simpl; [done|].
  by destruct (is_space x).
Qed.

Lemma trim_pad w s w' :
  Forall (fun x => is_space x = true) w ->
  Forall (fun x => is_space x = true) w' ->
  trim (w ++ s ++ w') = trim s.
Proof.
  intros Hw Hw'. unfold trim.
  rewrite trimStart_pad, trimStart_app_r by done.
  destruct (trimStart s) as [|c t].
  - by rewrite trimStart_spaces.
  - by rewrite trimEnd_pad.
Qed.

(** X14: white space before and after the content (blank lines at the end
    of the file, a byte-order mark U+FEFF at its start) does not change
    what [parseSRT] returns. *)
Theorem surrounding_space_ignored w content w' :
  Forall (fun x => is_space x = true) w ->
  Forall (fun x => is_space x = true) w' ->
  parseSRT (w ++ content ++ w') = parseSRT content.
Proof. intros Hw Hw'. unfold parseSRT. by rewrite trim_pad. Qed.

Lemma surrounding_space_ignored_witness :
  parseSRT ([65279; LF]%N ++ ex_multiline ++ [CR; LF; LF; 32]%N)
  = parseSRT ex_multiline.
Proof.
  apply surrounding_space_ignored; by repeat constructor.
Defined.

(** ** Carriage returns at the ends of the lines *)

Lemma is_timecode_last_digit t q c :
  is_timecode t = true -> t = q ++ [c] -> is_digit c = true.
Proof.
  intros H Hq.
  do 12 (destruct t as [|? t]; [simpl in H; discriminate|]).
  destruct t; [|simpl in H; discriminate].
  simpl in H. rewrite !andb_true_iff in H. destruct_and!.
  apply (f_equal last) in Hq. rewrite last_snoc in Hq. simpl in Hq.
  by injection Hq as <-.
Qed.

Lemma has_time_range_CR line :
  has_time_range (line ++ [CR]) -> has_time_range line.
Proof.
  intros (pre & t1 & t2 & post & Hl & H1 & H2).
  destruct post as [|c post _] using rev_ind.
  - rewrite app_nil_r, !app_assoc in Hl.
    destruct t2 as [|x t2 _] using rev_ind; [done|].
    rewrite !app_assoc in Hl. apply app_inj_tail in Hl as [_ <-].
    by apply (is_timecode_last_digit _ t2 CR) in H2.
  - rewrite !app_assoc in Hl. apply app_inj_tail in Hl as [Hl _].
    exists pre, t1, t2, post. by rewrite Hl, <- !app_assoc.
Qed.

(** A carriage return after a line does not change what the time pattern
    finds in it. *)
Lemma string_match_CR line :
  string_match (line ++ [CR]) time_pattern = string_match line time_pattern.
Proof.
  destruct (string_match line time_pattern) as [res|] eqn:Hm.
  - apply string_match_time_Some in Hm
      as (pre & t1 & t2 & post & -> & Hl & H1 & H2 & Hleft).
    destruct (string_match_time_is_Some (line ++ [CR])) as [res' Hm'].
    { exists pre, t1, t2, (post ++ [CR]). rewrite Hl.
      by rewrite <- !app_assoc. }
    rewrite Hm'. f_equal.
    apply string_match_time_Some in Hm'
      as (pre' & u1 & u2 & post' & -> & Hl' & Hu1 & Hu2 & Hleft').
    assert (Hle' : length pre' <= length pre).
    { apply (Hleft' pre t1 t2 (post ++ [CR])); [|done|done].
      rewrite Hl. by rewrite <- !app_assoc. }
    destruct post' as [|c q _] using rev_ind.
    { rewrite app_nil_r, !app_assoc in Hl'.
      destruct u2 as [|x u2 _] using rev_ind; [done|].
      rewrite !app_assoc in Hl'. apply app_inj_tail in Hl' as [_ <-].
      by apply (is_timecode_last_digit _ u2 CR) in Hu2. }
    rewrite !app_assoc in Hl'. apply app_inj_tail in Hl' as [Hl' _].
    rewrite <- !app_assoc in Hl'.
    assert (Hle : length pre <= length pre') by (by eapply Hleft).
    rewrite Hl in Hl'.
    apply app_inj_1 in Hl' as [_ Hl']; [|lia].
    apply app_inj_1 in Hl' as [-> Hl']; [|by rewrite !is_timecode_length].
    apply app_inj_1 in Hl' as [_ Hl']; [|done].
    apply app_inj_1 in Hl' as [-> _]; [|by rewrite !is_timecode_length].
    done.
  - apply string_match_time_None. apply string_match_time_None in Hm.
    intros H. by apply Hm, has_time_range_CR.
Qed.

Lemma split_char_two_lines l0 l1 tail :
  LF ∉ l0 -> LF ∉ l1 ->
  split_char LF (l0 ++ [LF] ++ l1 ++ [LF] ++ tail)
  = l0 :: l1 :: split_char LF tail.
Proof.
  intros H0 H1.
  change (l0 ++ [LF] ++ l1 ++ [LF] ++ tail) with (l0 ++ LF :: l1 ++ LF :: tail).
  by rewrite !split_char_cut.
Qed.

Lemma block_entry_lines l0 l1 tail :
  LF ∉ l0 -> LF ∉ l1 ->
  block_entry (l0 ++ [LF] ++ l1 ++ [LF] ++ tail)
  = match string_match l1 time_pattern with
    | Some [_; startTime; endTime] =>
        Some (mkEntry (parseInt (trim l0)) startTime endTime (trim tail))
    | _ => None
    end.
Proof.
  intros H0 H1. unfold block_entry.
  rewrite split_char_two_lines by done.
  pose proof (split_char_nonempty LF tail) as Hn.
  pose proof (join_split_char LF tail) as Hj.
  destruct (split_char LF tail) as [|l ls]; [done|].
  change (drop 2 (?a :: ?b :: ?c)) with c. by rewrite Hj.
Qed.

(** X15: Windows line ends inside a block: a carriage return before each of
    the first two newlines and one at the end of the block change nothing in
    what the callback of [parseSRT] does with the block: the index, the
    times and the (trimmed) text of the entry are the same; carriage returns
    between the lines of the text stay in it. *)
Theorem carriage_returns_tolerated l0 l1 tail entries :
  LF ∉ l0 -> LF ∉ l1 ->
  parse_block entries
    ((l0 ++ [CR]) ++ [LF] ++ (l1 ++ [CR]) ++ [LF] ++ tail ++ [CR])
  = parse_block entries (l0 ++ [LF] ++ l1 ++ [LF] ++ tail).
Proof.
  intros H0 H1.
  assert (Hcr : forall l, LF ∉ l -> LF ∉ l ++ [CR]).
  { intros l Hl. rewrite not_elem_of_app. split; [done|].
    rewrite list_elem_of_singleton. done. }
  rewrite !parse_block_entry, !block_entry_lines by auto.
  assert (Ht : forall s, trim (s ++ [CR]) = trim s).
  { intros s. apply (trim_pad [] s [CR]); by repeat constructor. }
  by rewrite string_match_CR, !Ht.
Qed.

Lemma carriage_returns_tolerated_witness :
  parse_block []
    ((lit "7" ++ [CR]) ++ [LF]
     ++ ((lit "00:00:01,000" ++ lit " --> " ++ lit "00:00:02,000") ++ [CR])
     ++ [LF] ++ (lit "Line one" ++ [CR; LF] ++ lit "Line two") ++ [CR])
  = parse_block []
      (lit "7" ++ [LF]
       ++ (lit "00:00:01,000" ++ lit " --> " ++ lit "00:00:02,000") ++ [LF]
       ++ (lit "Line one" ++ [CR; LF] ++ lit "Line two")).
Proof.
  apply carriage_returns_tolerated.
  - assert (lit "7" = [55]%N) as -> by (by vm_compute).
    rewrite !not_elem_of_cons. split; [done | apply not_elem_of_nil].
  - apply time_line_no_LF; reflexivity.
Defined.

(** ** Two texts, one after the other *)

Lemma match_here_blank_unfold x t :
  match_here blank_pattern (x :: t)
  = if (LF =? x)%N then star_greedy is_space t blank_tail else None.
Proof. reflexivity. Qed.

Lemma star_greedy_cons {A} p x s (k : str -> option A) :
  star_greedy p (x :: s) k
  = if p x then match star_greedy p s k with
                | Some a => Some a
                | None => k (x :: s)
                end
    else k (x :: s).
Proof. reflexivity. Qed.

Lemma blank_tail_extend x s extra :
  blank_tail (x :: s ++ extra)
  = (fun r => (r.1 ++ extra, r.2)) <$> blank_tail (x :: s).
Proof. unfold blank_tail. by destruct (LF =? x)%N. Qed.

Lemma star_greedy_extend (t extra : str) :
  Exists (fun x => is_space x = false) t ->
  star_greedy is_space (t ++ extra) blank_tail
  = (fun r => (r.1 ++ extra, r.2)) <$> star_greedy is_space t blank_tail.
Proof.
  induction t as [|x t IH]; intros Ht; [by inversion Ht|].
  change ((x :: t) ++ extra) with (x :: t ++ extra).
  rewrite !star_greedy_cons, blank_tail_extend.
  destruct (is_space x) eqn:Hx; [|done].
  rewrite IH by (by inversion Ht; subst; [congruence|]).
  by destruct (star_greedy is_space t blank_tail).
Qed.

(** Text put after a code unit that is not white space does not change
    where the separator matches before it. *)
Lemma blank_match_extend x t extra :
  Exists (fun y => is_space y = false) t ->
  match_here blank_pattern (x :: t ++ extra)
  = (fun r => (r.1 ++ extra, r.2)) <$> match_here blank_pattern (x :: t).
Proof.
  intros Ht. rewrite !match_here_blank_unfold.
  destruct (LF =? x)%N; [|done]. by apply star_greedy_extend.
Qed.

Lemma ends_solid_cons_Exists x v :
  ends_solid (x :: v) = true -> v <> [] ->
  Exists (fun y => is_space y = false) v.
Proof.
  intros H Hv. apply ends_solid_Exists.
  by rewrite <- (ends_solid_app_eq [x] v).
Qed.

Lemma Split_append Y qs X ps :
  Split blank_pattern X ps -> ends_solid X = true ->
  starts_solid Y = true -> Split blank_pattern Y qs ->
  Split blank_pattern (X ++ [LF; LF] ++ Y) (ps ++ qs).
Proof.
  intros HX He Hs HY.
  assert (Hsep : match_here blank_pattern ([LF; LF] ++ Y) = Some (Y, [])).
  { destruct Y as [|d t]; [done|]. simpl in Hs.
    apply negb_true_iff in Hs. by apply blank_match_double. }
  induction HX as [p Hp|p m rest ps Hp Hm Hmatch HX IH].
  - apply Split_cons; [|done|done|done].
    intros u x v ->. destruct v as [|y v].
    + apply blank_match_None. left. intros ->.
      rewrite ends_solid_app_eq in He by done. done.
    + rewrite ends_solid_app_eq in He by done.
      rewrite blank_match_extend by (by eapply ends_solid_cons_Exists).
      by rewrite (Hp u x (y :: v)).
  - assert (Hrest : rest <> [] /\ ends_solid rest = true).
    { destruct (blank_match_sound _ _ _ Hmatch) as (_ & w & Hw & _).
      rewrite Hw in He. destruct rest as [|y rest].
      - rewrite app_comm_cons, app_assoc in He.
        rewrite (ends_solid_app_eq _ [LF]) in He by done. done.
      - split; [done|].
        rewrite app_comm_cons, !app_assoc in He.
        change (((p ++ LF :: w) ++ LF :: y :: rest))
          with ((p ++ LF :: w) ++ [LF] ++ (y :: rest)) in He.
        rewrite !app_assoc in He.
        by rewrite ends_solid_app_eq in He. }
    destruct Hrest as [Hne Hre].
    assert (Hex : Exists (fun y => is_space y = false) rest)
      by (by apply ends_solid_Exists).
    replace ((p ++ m ++ rest) ++ [LF; LF] ++ Y)
      with (p ++ m ++ (rest ++ [LF; LF] ++ Y)) by (by rewrite <- !app_assoc).
    change ((p :: ps) ++ qs) with (p :: (ps ++ qs)).
    apply Split_cons; [|done| |by apply IH].
    + intros u x v ->.
      replace (v ++ m ++ rest ++ [LF; LF] ++ Y)
        with ((v ++ m ++ rest) ++ [LF; LF] ++ Y) by (by rewrite <- !app_assoc).
      rewrite blank_match_extend.
      * by rewrite (Hp u x v).
      * rewrite !Exists_app. by right; right.
    + destruct m as [|x m]; [done|].
      replace ((x :: m) ++ rest ++ [LF; LF] ++ Y)
        with (x :: (m ++ rest) ++ [LF; LF] ++ Y)
        by (simpl; by rewrite <- !app_assoc).
      rewrite blank_match_extend by (rewrite Exists_app; by right).
      simpl in Hmatch. by rewrite Hmatch.
Qed.

(** X16: two trimmed, non-empty texts put one after the other with one empty
    line between them parse to the entries of the first followed by the
    entries of the second. *)
Theorem parseSRT_concat X Y :
  starts_solid X = true -> ends_solid X = true ->
  starts_solid Y = true -> ends_solid Y = true ->
  exists eX eY,
    parseSRT X = Ok eX /\ parseSRT Y = Ok eY
    /\ parseSRT (X ++ [LF; LF] ++ Y) = Ok (eX ++ eY).
Proof.
  intros HXs HXe HYs HYe.
  destruct (regex_split_returns X blank_pattern) as [ps Hps].
  destruct (regex_split_returns Y blank_pattern) as [qs Hqs].
  exists (omap block_entry ps), (omap block_entry qs).
  unfold parseSRT. rewrite !trim_solid; try done.
  - rewrite Hps, Hqs.
    rewrite (proj2 (regex_split_Split _ _)
               (Split_append Y qs X ps
                  (proj1 (regex_split_Split _ _) Hps) HXe HYs
                  (proj1 (regex_split_Split _ _) Hqs))).
    cbn [mbind result_bind].
    by rewrite !forEach_parse_block, omap_app.
  - by apply starts_solid_app.
  - by apply ends_solid_app, (ends_solid_app [LF; LF]).
Qed.

Lemma parseSRT_concat_witness :
  exists eX eY,
    parseSRT ex_multiline = Ok eX /\ parseSRT ex_bad_index = Ok eY
    /\ parseSRT (ex_multiline ++ [LF; LF] ++ ex_bad_index) = Ok (eX ++ eY).
Proof.
  apply parseSRT_concat; reflexivity.
Defined.
